(** * auto_responder: the reasoning loop and the retrieval pipeline

    A shallow embedding of the algorithmic core of the e-mail assistant:
    - [app/agents/base_agent.py]: the agent state, the parser of the
      model's decision text, and the nodes and the router of the
      LangGraph workflow, each as the function it is;
    - [app/agents/context_retriever.py]: query generation, query expansion,
      context de-duplication and relevance filtering;
    - [app/agents/intent_classifier.py]: the urgency tiers of the keyword
      analyser;
    - [app/agents/response_generator.py]: the tone analyser.

    Conventions of the embedding.
    - A Python [str] is a [list ascii]: a sequence of code points below 256.
      Character classes ([str.isspace], [str.lower], the regex class [\w])
      are those of Python 3 restricted to that range.
    - [Optional[T]] is [option T]; Python truthiness of an optional string
      is written out ([None] and the empty string are both false).
    - A vector-store or relevance score is a finite float.  The code only
      compares and moves scores, so they are embedded as rationals [Q]
      (every finite binary64 value is a rational and the orders agree).
    - The language model, the tool executor and the vector store are
      external: their outcome is an argument of the embedded function,
      [None] or [inr _] standing for a raised exception.
    - A function that can raise returns a sum: [inl] the value, [inr] the
      text of the exception.  The two classes of [langchain_core] that the
      parser instantiates are modelled by the signature of their
      constructors; the text of the [TypeError] of a call that leaves out a
      required argument is a parameter.
    - A [dict] is a [gmap]; a list indexed or assigned by position uses
      stdpp's lookup and insert, with Python's [IndexError] written out. *)

From Stdlib Require Import Ascii String QArith Qminmax.
From stdpp Require Import gmap strings list fin_maps sorting.

Set Default Proof Using "Type".
Local Open Scope list_scope.

(* ===================================================================== *)
(** * Part I.  The embedding                                              *)
(* ===================================================================== *)

(** ** Python strings *)

Module PyStr.

Abbreviation str := (list ascii).

(** A string literal of the source. *)
Definition py (s : string) : str := list_ascii_of_string s.

Definition code (c : ascii) : N := N_of_ascii c.

(** [str.isspace] on one character: TAB..CR, FS..US, SPACE, NEL, NBSP. *)
Definition isspace (c : ascii) : bool :=
  let n := code c in
  ((9 <=? n) && (n <=? 13) || (28 <=? n) && (n <=? 32)
   || (n =? 133) || (n =? 160))%N.

(** [str.lower] on one character: A..Z and the Latin-1 capitals
    (U+00C0..U+00DE without the multiplication sign) move up by 32. *)
Definition lower_char (c : ascii) : ascii :=
  let n := code c in
  if ((65 <=? n) && (n <=? 90)
      || (192 <=? n) && (n <=? 222) && negb (n =? 215))%N
  then ascii_of_N (n + 32) else c.

Definition lower (s : str) : str := map lower_char s.

(** The regex class [\w] of a [str] pattern: [str.isalnum] or ["_"]. *)
Definition isword (c : ascii) : bool :=
  let n := code c in
  ((48 <=? n) && (n <=? 57) || (65 <=? n) && (n <=? 90)
   || (97 <=? n) && (n <=? 122) || (n =? 95)
   || (n =? 170) || (n =? 178) || (n =? 179) || (n =? 181)
   || (185 <=? n) && (n <=? 186) || (188 <=? n) && (n <=? 190)
   || (192 <=? n) && (n <=? 214) || (216 <=? n) && (n <=? 246)
   || (248 <=? n) && (n <=? 255))%N.

(** [s.lstrip()], [s.rstrip()], [s.strip()]. *)
Fixpoint lstrip (s : str) : str :=
  match s with
  | c :: r => if isspace c then lstrip r else s
  | [] => []
  end.

Definition rstrip (s : str) : str := rev (lstrip (rev s)).

Definition strip (s : str) : str := rstrip (lstrip s).

(** [s.startswith(p)]. *)
Fixpoint startswith (p s : str) : bool :=
  match p, s with
  | [], _ => true
  | a :: p', b :: s' => if decide (a = b) then startswith p' s' else false
  | _ :: _, [] => false
  end.

(** [sub in s]. *)
Fixpoint contains (sub s : str) : bool :=
  startswith sub s ||
  match s with
  | [] => false
  | _ :: r => contains sub r
  end.

(** [s[:n]] for a non-negative [n]. *)
Definition slice_to (n : nat) (s : str) : str := take n s.

(** [s.split()]: the maximal runs of non-whitespace characters.  [cur]
    holds the run being read, last character first. *)
Fixpoint split_ws_from (cur : str) (s : str) : list str :=
  match s with
  | [] => match cur with [] => [] | _ => [rev cur] end
  | c :: r =>
      if isspace c
      then match cur with
           | [] => split_ws_from [] r
           | _ => rev cur :: split_ws_from [] r
           end
      else split_ws_from (c :: cur) r
  end.

Definition split_ws (s : str) : list str := split_ws_from [] s.

(** [s.split(sep)] for a one-character [sep]: empty pieces are kept. *)
Fixpoint split_char_from (sep : ascii) (cur : str) (s : str) : list str :=
  match s with
  | [] => [rev cur]
  | c :: r =>
      if decide (c = sep) then rev cur :: split_char_from sep [] r
      else split_char_from sep (c :: cur) r
  end.

Definition split_char (sep : ascii) (s : str) : list str :=
  split_char_from sep [] s.

(** [s.split(sep, 1)[1]] when [sep in s]: what follows the first
    occurrence of [sep]; [None] when [sep] does not occur. *)
Fixpoint after_first (sep s : str) : option str :=
  if startswith sep s then Some (drop (length sep) s)
  else match s with
       | [] => None
       | _ :: r => after_first sep r
       end.

(** [sep.join(l)]. *)
Fixpoint join (sep : str) (l : list str) : str :=
  match l with
  | [] => []
  | [x] => x
  | x :: r => x ++ sep ++ join sep r
  end.

(** [s.replace(old, new)] for a non-empty [old]: occurrences are replaced
    left to right without overlap.  [skip] counts the characters of the
    occurrence just replaced that are still to be passed over. *)
Fixpoint replace_from (old new : str) (skip : nat) (s : str) : str :=
  match s with
  | [] => []
  | c :: r =>
      match skip with
      | S k => replace_from old new k r
      | O =>
          if startswith old s
          then new ++ replace_from old new (length old - 1) r
          else c :: replace_from old new 0 r
      end
  end.

Definition replace (old new s : str) : str := replace_from old new 0 s.

(** Truthiness of an [Optional[str]]. *)
Definition truthy (o : option str) : bool :=
  match o with
  | Some (_ :: _) => true
  | _ => false
  end.

End PyStr.

Import PyStr.

(** ** [base_agent.py]: the state and the nodes of the workflow *)

Module BaseAgent.

(** [langchain_core.agents.AgentAction]: the three fields its
    constructor asks for. *)
Record AgentAction := {
  tool : str;
  tool_input : str;
  log : str
}.

(** [langchain_core.agents.AgentFinish]; [output] is
    [return_values["output"]]. *)
Record AgentFinish := {
  output : str;
  finish_log : str
}.

(** [Union[AgentAction, AgentFinish]]. *)
Inductive Parsed :=
| Action (a : AgentAction)
| Finish (f : AgentFinish).

(** [class AgentState(BaseModel)].  The messages of the execution state
    are kept by their content; [metadata] is kept by the two entries the
    response node writes. *)
Record AgentState := {
  email_content : option str;
  sender : option str;
  subject : option str;
  intent : option str;
  context : option str;
  messages : list str;
  actions : list AgentAction;
  action_results : list str;
  current_action : option AgentAction;
  final_answer : option str;
  response : option str;
  steps_taken : option nat;
  tools_used : list str;
  error : option str
}.

Definition set_error (e : str) (s : AgentState) : AgentState :=
  {| email_content := email_content s; sender := sender s;
     subject := subject s; intent := intent s; context := context s;
     messages := messages s; actions := actions s;
     action_results := action_results s;
     current_action := current_action s; final_answer := final_answer s;
     response := response s; steps_taken := steps_taken s;
     tools_used := tools_used s; error := Some e |}.

(** ** The decision parser *)

(** The first line of [s]: the characters before the first newline. *)
Fixpoint upto_newline (s : str) : str :=
  match s with
  | [] => []
  | c :: r => if decide (c = "010"%char) then [] else c :: upto_newline r
  end.

(** The longest prefix of word characters and what follows it. *)
Fixpoint span_word (s : str) : str * str :=
  match s with
  | c :: r =>
      if isword c then let '(w, rest) := span_word r in (c :: w, rest)
      else ([], s)
  | [] => ([], [])
  end.

(** [s] without the prefix [p], when it has it. *)
Fixpoint strip_prefix (p s : str) : option str :=
  match p, s with
  | [], _ => Some s
  | a :: p', b :: s' => if decide (a = b) then strip_prefix p' s' else None
  | _ :: _, [] => None
  end.

(** The pattern [Action: (\w+)\nAction Input: (.*?)(?:\n|$)] (with
    [re.DOTALL]) tried at the start of [s]; the result is the two groups.
    [\w+] is greedy and must be followed by a newline, which is not a
    word character, so only the longest run of word characters can
    match; the lazy [(.*?)] stops at the first newline or at the end of
    the text, so once the literal parts are found the match succeeds. *)
Definition match_action_at (s : str) : option (str * str) :=
  match strip_prefix (py "Action: ") s with
  | None => None
  | Some r1 =>
      match span_word r1 with
      | ([], _) => None
      | (name, r2) =>
          match strip_prefix ("010"%char :: py "Action Input: ") r2 with
          | None => None
          | Some r3 => Some (name, upto_newline r3)
          end
      end
  end.

(** [re.search]: the match at the leftmost position that has one. *)
Fixpoint search_action (s : str) : option (str * str) :=
  match match_action_at s with
  | Some m => Some m
  | None =>
      match s with
      | [] => None
      | _ :: r => search_action r
      end
  end.

Section constructors.

(** [langchain_core] is a dependency of the repository, not code of it.
    Its constructors are declared
    [AgentAction.__init__(self, tool, tool_input, log, **kwargs)] and
    [AgentFinish.__init__(self, return_values, log, **kwargs)]: [log] is
    required, and a call that does not pass it raises [TypeError].
    [no_log cls] is the text of that exception for the class named [cls];
    its wording belongs to the interpreter. *)
Variable no_log : str → str.

(** A call [AgentAction(tool=..., tool_input=..., log=...)]; [log] is
    [None] when the call does not pass the argument. *)
Definition new_AgentAction (tool tool_input : str) (log : option str)
    : AgentAction + str :=
  match log with
  | Some log => inl {| tool := tool; tool_input := tool_input; log := log |}
  | None => inr (no_log (py "AgentAction"))
  end.

(** A call [AgentFinish(return_values={"output": ...}, log=...)]. *)
Definition new_AgentFinish (output : str) (log : option str)
    : AgentFinish + str :=
  match log with
  | Some log => inl {| output := output; finish_log := log |}
  | None => inr (no_log (py "AgentFinish"))
  end.

(** [_parse_llm_response].  Neither call of a constructor passes
    [log]. *)
Definition _parse_llm_response (response : str) : Parsed + str :=
  let response := strip response in
  let as_final :=
    match new_AgentFinish
            (strip (replace (py "Final Answer:") [] response)) None with
    | inl f => inl (Finish f)
    | inr e => inr e
    end in
  if contains (py "Action:") response then
    match search_action response with
    | Some (g1, g2) =>
        match new_AgentAction (strip g1) (strip g2) None with
        | inl a => inl (Action a)
        | inr e => inr e
        end
    | None => as_final
    end
  else as_final.

(** ** The nodes *)

(** [_agent_step].  [llm] is the outcome of formatting the messages and
    of [self.llm.ainvoke] on them: the content of the reply, or the text
    of the exception.  The reply is appended to the messages before it is
    parsed, so it stays there when the parser raises. *)
Definition _agent_step (llm : str + str) (state : AgentState) : AgentState :=
  match llm with
  | inl content =>
      let msgs := messages state ++ [content] in
      match _parse_llm_response content with
      | inl (Action a) =>
          {| email_content := email_content state; sender := sender state;
             subject := subject state; intent := intent state;
             context := context state; messages := msgs;
             actions := actions state ++ [a];
             action_results := action_results state;
             current_action := Some a;
             final_answer := final_answer state;
             response := response state;
             steps_taken := steps_taken state;
             tools_used := tools_used state; error := error state |}
      | inl (Finish f) =>
          {| email_content := email_content state; sender := sender state;
             subject := subject state; intent := intent state;
             context := context state; messages := msgs;
             actions := actions state;
             action_results := action_results state;
             current_action := current_action state;
             final_answer := Some (output f);
             response := response state;
             steps_taken := steps_taken state;
             tools_used := tools_used state; error := error state |}
      | inr e =>
          {| email_content := email_content state; sender := sender state;
             subject := subject state; intent := intent state;
             context := context state; messages := msgs;
             actions := actions state;
             action_results := action_results state;
             current_action := current_action state;
             final_answer := final_answer state;
             response := response state;
             steps_taken := steps_taken state;
             tools_used := tools_used state;
             error := Some (py "Agent step failed: " ++ e) |}
      end
  | inr e => set_error (py "Agent step failed: " ++ e) state
  end.

End constructors.

(** The three branches of the conditional edge: ["action"], ["final"],
    ["error"]. *)
Inductive Route := ACT | FINAL | ERROR.

Definition _route_agent_step (state : AgentState) : Route :=
  if truthy (error state) then ERROR
  else if truthy (final_answer state) then FINAL
  else match current_action state with
       | Some _ => ACT
       | None => ERROR
       end.

(** [ToolExecutor.ainvoke] on a tool name and its input: the text of the
    result ([str(result)]), or the text of the exception. *)
Definition ToolExecutor := str -> str -> str + str.

(** [_execute_action]; [tool_executor] is [None] for an agent without
    tools. *)
Definition _execute_action (tool_executor : option ToolExecutor)
    (state : AgentState) : AgentState :=
  match current_action state, tool_executor with
  | Some a, Some executor =>
      match executor (tool a) (tool_input a) with
      | inl result =>
          {| email_content := email_content state; sender := sender state;
             subject := subject state; intent := intent state;
             context := context state;
             messages := messages state ++ [py "Observation: " ++ result];
             actions := actions state;
             action_results := action_results state ++ [result];
             current_action := None;
             final_answer := final_answer state;
             response := response state;
             steps_taken := steps_taken state;
             tools_used := tools_used state; error := error state |}
      | inr e => set_error (py "Action execution failed: " ++ e) state
      end
  | _, _ => set_error (py "No action to execute or no tool executor") state
  end.

(** [_process_response]: the final answer becomes the response and the
    run metadata is attached. *)
Definition _process_response (state : AgentState) : AgentState :=
  if truthy (final_answer state) then
    {| email_content := email_content state; sender := sender state;
       subject := subject state; intent := intent state;
       context := context state; messages := messages state;
       actions := actions state;
       action_results := action_results state;
       current_action := current_action state;
       final_answer := final_answer state;
       response := final_answer state;
       steps_taken := Some (length (actions state));
       tools_used := map tool (actions state); error := error state |}
  else set_error (py "No final answer to process") state.

End BaseAgent.

(** ** [context_retriever.py]: the query planner *)

Module QueryExpansionTool.

(** [line.startswith(('1.', '2.', '3.', '4.', '5.'))]. *)
Definition numbered (line : str) : bool :=
  existsb (fun p => startswith p line)
          [py "1."; py "2."; py "3."; py "4."; py "5."].

(** The body of the loop over the lines of the reply: the lines kept,
    in order. *)
Fixpoint parse_lines (lines : list str) : list str :=
  match lines with
  | [] => []
  | line :: rest =>
      let line := strip line in
      match line with
      | [] => parse_lines rest
      | _ =>
          if numbered line then parse_lines rest
          else match after_first (py ". ") line with
               | Some tail => tail :: parse_lines rest
               | None => line :: parse_lines rest
               end
      end
  end.

(** The ["expanded_queries"] entry of the dictionary [_run] returns.
    [llm] is the outcome of [self.llm.invoke(prompt)]: the content of the
    reply, or [None] when the call raises. *)
Definition _run (llm : option str) (query : str) : list str :=
  match llm with
  | Some content =>
      take 5 (parse_lines (split_char "010"%char (strip content)))
  | None => [query]
  end.

End QueryExpansionTool.

Module ContextRetrieverAgent.

Import BaseAgent.

(** [list(dict.fromkeys(queries))]: a dictionary keeps its keys in the
    order of their first insertion. *)
Definition dict_fromkeys (keys : list str) : list str :=
  foldl (fun acc k => if decide (k ∈ acc) then acc else acc ++ [k]) [] keys.

(** [_expand_query].  [expansion] is the outcome of building the tool and
    calling its [_run]: the list under ["expanded_queries"], or [None]
    when that raised. *)
Definition expand_with (expansion : option (list str))
    (original_query : str) : list str :=
  match expansion with
  | Some expanded => dict_fromkeys (original_query :: expanded)
  | None => [original_query]
  end.

(** [_expand_query] with the tool of this module: [_run] catches the
    failure of the model itself. *)
Definition _expand_query (llm : option str) (original_query : str)
    : list str :=
  expand_with (Some (QueryExpansionTool._run llm original_query))
              original_query.

Definition stop_words : list str :=
  map py ["the"; "a"; "an"; "and"; "or"; "but"; "in"; "on"; "at"; "to";
          "for"; "of"; "with"; "by"; "is"; "are"; "was"; "were"; "be";
          "been"; "have"; "has"; "had"; "do"; "does"; "did"; "will";
          "would"; "could"; "should"; "may"; "might"; "can"; "i"; "you";
          "he"; "she"; "it"; "we"; "they"; "my"; "your"; "his"; "her";
          "its"; "our"; "their"]%string.

(** The keyword fallback: [' '.join(keywords[:5])]. *)
Definition keyword_query (email_content : str) : str :=
  let words := split_ws (lower email_content) in
  let keywords :=
    filter (fun word => (word ∉ stop_words) ∧ (3 < length word)%nat) words in
  join (py " ") (take 5 keywords).

(** The handler of the [except] branch: subject, else truncated body. *)
Definition fallback_query (subject : option str) (email_content : str)
    : str :=
  match subject with
  | Some (c :: r) => c :: r
  | _ => slice_to 50 email_content
  end.

(** [_generate_search_query] on a state whose [email_content] is a
    string ([process] returns before the call otherwise).  [llm] is the
    outcome of [self.llm.ainvoke(prompt)]: the content of the reply, or
    [None] when the call raises. *)
Definition generate_search_query (llm : option str)
    (subject : option str) (email_content : str) : str :=
  match llm with
  | Some content =>
      let search_query := strip content in
      if bool_decide (search_query = []) || (length search_query <? 3)
      then keyword_query email_content
      else search_query
  | None => fallback_query subject email_content
  end.

(** [None] when the exception leaves the function: with no
    [email_content] the slice raises in the body and again in the
    handler. *)
Definition _generate_search_query (llm : option str) (state : AgentState)
    : option str :=
  match email_content state with
  | Some body => Some (generate_search_query llm (subject state) body)
  | None =>
      match subject state with
      | Some (c :: r) => Some (c :: r)
      | _ => None
      end
  end.

(** *** De-duplication *)

(** The key of a context: [context[:100].strip()]. *)
Definition context_key (context : str) : str := strip (slice_to 100 context).

(** The local variables of [_deduplicate_contexts]. *)
Record DedupState := {
  seen_contexts : gmap str nat;
  unique_contexts : list str;
  unique_sources : list str;
  unique_scores : list Q
}.

Definition dedup_init : DedupState :=
  {| seen_contexts := ∅; unique_contexts := []; unique_sources := [];
     unique_scores := [] |}.

(** [l[i] = x]: [None] is the [IndexError] of an index out of range. *)
Definition assign {A} (i : nat) (x : A) (l : list A) : option (list A) :=
  if decide (i < length l) then Some (<[i:=x]> l) else None.

(** One iteration of the loop over [enumerate(contexts)]; [None] is a
    raised [IndexError]. *)
Definition dedup_step (sources : list str) (scores : list Q)
    (st : DedupState) (i : nat) (context : str) : option DedupState :=
  let key := context_key context in
  match seen_contexts st !! key with
  | None =>
      Some {| seen_contexts :=
                <[key := length (unique_contexts st)]> (seen_contexts st);
              unique_contexts := unique_contexts st ++ [context];
              unique_sources :=
                unique_sources st ++ [default (py "Unknown") (sources !! i)];
              unique_scores :=
                unique_scores st ++ [default (1 # 2)%Q (scores !! i)] |}
  | Some existing_idx =>
      match scores !! i, unique_scores st !! existing_idx with
      | Some score, Some kept =>
          if Qlt_le_dec kept score then
            ucs ← assign existing_idx context (unique_contexts st);
            source ← sources !! i;
            uss ← assign existing_idx source (unique_sources st);
            usc ← assign existing_idx score (unique_scores st);
            Some {| seen_contexts := seen_contexts st;
                    unique_contexts := ucs; unique_sources := uss;
                    unique_scores := usc |}
          else Some st
      | _, _ => Some st
      end
  end.

(** The loop, from position [i] on. *)
Fixpoint dedup_loop (sources : list str) (scores : list Q) (i : nat)
    (contexts : list str) (st : DedupState) : option DedupState :=
  match contexts with
  | [] => Some st
  | context :: rest =>
      st' ← dedup_step sources scores st i context;
      dedup_loop sources scores (S i) rest st'
  end.

(** The dictionary [_deduplicate_contexts] returns. *)
Record Deduplicated := {
  contexts : list str;
  sources : list str;
  scores : list Q
}.

Definition _deduplicate_contexts (contexts : list str) (sources : list str)
    (scores : list Q) : Deduplicated :=
  match dedup_loop sources scores 0 contexts dedup_init with
  | Some st =>
      {| contexts := unique_contexts st; sources := unique_sources st;
         scores := unique_scores st |}
  | None =>
      {| contexts := contexts; sources := sources; scores := scores |}
  end.

End ContextRetrieverAgent.


(** ** [context_retriever.py]: relevance filtering *)

Module ContextFilterTool.

(** What [float(score_text)] can produce. *)
Inductive pyfloat :=
| Finite (q : Q)
| PosInf
| NegInf
| NaN.

(** What scoring one context comes to: the call of the model raises,
    [float] raises [ValueError] on the reply, or the reply is a number. *)
Inductive Rating :=
| CallFails
| NotANumber
| Number (x : pyfloat).

(** [x < y] on floats, [y] an integer literal of the source. *)
Definition float_lt_lit (x : pyfloat) (y : Q) : bool :=
  match x with
  | Finite q => if Qlt_le_dec q y then true else false
  | NegInf => true
  | PosInf | NaN => false
  end.

(** [max(1, min(10, score))].  [min(10, score)] is [score] when
    [score < 10] and [10] otherwise; [max(1, m)] is [m] when [m > 1] and
    [1] otherwise.  A NaN compares false and yields 10. *)
Definition clamp (score : pyfloat) : Q :=
  if float_lt_lit score 10 then
    match score with
    | Finite q => if Qlt_le_dec 1 q then q else 1
    | _ => 1
    end
  else 10.

(** The score recorded for one context. *)
Definition score_of (r : Rating) : Q :=
  match r with
  | Number x => clamp x
  | NotANumber | CallFails => 5
  end.

(** An element of [scored_contexts]. *)
Record Scored := {
  context : str;
  score : Q;
  index : nat
}.

(** The scoring loop from position [i] on.  [llm i c] is the outcome of
    scoring the context at position [i], whose text cut to 1000
    characters is [c]. *)
Fixpoint score_from (llm : nat -> str -> Rating) (i : nat)
    (contexts : list str) : list Scored :=
  match contexts with
  | [] => []
  | c :: rest =>
      {| context := c; score := score_of (llm i (slice_to 1000 c));
         index := i |} :: score_from llm (S i) rest
  end.

(** [list.sort(key=score, reverse=True)]: a stable sort, also with
    [reverse]; written as the insertion of each element, the last one
    first, in front of the first element it does not score below. *)
Fixpoint insert_desc (x : Scored) (l : list Scored) : list Scored :=
  match l with
  | [] => [x]
  | y :: r =>
      if Qlt_le_dec (score x) (score y) then y :: insert_desc x r
      else x :: y :: r
  end.

Definition sort_desc (l : list Scored) : list Scored :=
  foldr insert_desc [] l.

Definition keeps (x : Scored) : bool :=
  if Qlt_le_dec (score x) 6 then false else true.

(** The local variable [filtered_contexts]. *)
Definition filtered (llm : nat -> str -> Rating) (contexts : list str)
    : list Scored :=
  List.filter keeps (sort_desc (score_from llm 0 contexts)).

Definition sum_scores (l : list Scored) : Q :=
  foldl (fun acc x => acc + score x)%Q 0%Q l.

(** The dictionary [_run] returns.  The average is a quotient of
    rationals: the rounding of the float division is not modelled. *)
Record Filtered := {
  filtered_contexts : list str;
  scores : list Q;
  original_indices : list nat;
  total_filtered : nat;
  avg_score : Q
}.

Definition _run (llm : nat -> str -> Rating) (contexts : list str)
    : Filtered :=
  let kept := filtered llm contexts in
  {| filtered_contexts := map context kept;
     scores := map score kept;
     original_indices := map index kept;
     total_filtered := length kept;
     avg_score :=
       match kept with
       | [] => 0%Q
       | _ => (sum_scores kept / inject_Z (Z.of_nat (length kept)))%Q
       end |}.

End ContextFilterTool.

(** ** [intent_classifier.py]: the urgency tiers *)

Module KeywordAnalysisTool.

(** [URGENCY_KEYWORDS]: a dictionary is iterated in the order of its
    literal. *)
Definition URGENCY_KEYWORDS : list (str * list str) :=
  [ (py "high",
     map py ["urgent"; "emergency"; "asap"; "immediately"; "critical";
             "deadline"; "time-sensitive"; "rush"; "priority"]%string);
    (py "medium",
     map py ["soon"; "quickly"; "prompt"; "timely"; "important";
             "needs attention"; "follow up"]%string);
    (py "low",
     map py ["when convenient"; "no rush"; "whenever";
             "at your convenience"; "low priority";
             "informational"]%string) ].

(** [any(keyword in content_lower for keyword in keywords)]. *)
Definition any_in (keywords : list str) (content_lower : str) : bool :=
  existsb (fun keyword => contains keyword content_lower) keywords.

(** The loop over the tiers, [urgency] being the value assigned so far. *)
Fixpoint urgency_loop (tiers : list (str * list str)) (content_lower : str)
    (urgency : str) : str :=
  match tiers with
  | [] => urgency
  | (level, keywords) :: rest =>
      if any_in keywords content_lower then
        if decide (level = py "high") then level
        else urgency_loop rest content_lower level
      else urgency_loop rest content_lower urgency
  end.

(** The ["urgency"] entry of the dictionary [_run] returns. *)
Definition urgency (email_content : str) : str :=
  urgency_loop URGENCY_KEYWORDS (lower email_content) (py "low").

End KeywordAnalysisTool.

(** ** [response_generator.py]: the tone analyser *)

Module ToneAnalysisTool.

(** The value of the class attribute [TONE_MAPPING] when the module is
    loaded.  Its lists are Python objects: [dict.get] hands out the list
    stored under the key, not a copy, so the mapping is part of the state
    that [_run] reads and writes. *)
Definition TONE_MAPPING : gmap str (list str) :=
  list_to_map
    [ (py "question", map py ["helpful"; "informative"; "professional"]%string);
      (py "complaint",
       map py ["apologetic"; "understanding"; "solution-focused"]%string);
      (py "escalation", map py ["urgent"; "professional"; "reassuring"]%string);
      (py "request",
       map py ["accommodating"; "professional"; "helpful"]%string) ].

Definition NEGATIVE_INDICATORS : list str :=
  map py ["frustrated"; "disappointed"; "angry"; "upset"; "terrible";
          "awful"; "horrible"; "unacceptable"; "disgusted";
          "furious"]%string.

Definition POSITIVE_INDICATORS : list str :=
  map py ["thank"; "appreciate"; "great"; "excellent"; "wonderful";
          "pleased"; "satisfied"; "happy"; "love"; "impressed"]%string.

Definition urgency_indicators : list str :=
  map py ["urgent"; "asap"; "immediately"; "emergency"; "critical"]%string.

(** [sum(1 for word in words if word in content_lower)]. *)
Definition count_in (words : list str) (content_lower : str) : nat :=
  length (List.filter (fun word => contains word content_lower) words).

(** [if t not in l: l.insert(0, t)] and [if t not in l: l.append(t)]. *)
Definition insert_front_if_absent (t : str) (l : list str) : list str :=
  if decide (t ∈ l) then l else t :: l.

Definition append_if_absent (t : str) (l : list str) : list str :=
  if decide (t ∈ l) then l else l ++ [t].

(** The adjustment of [base_tones] by the sentiment counts. *)
Definition adjust (negative_count positive_count : nat)
    (base_tones : list str) : list str :=
  if decide (positive_count < negative_count ∧ 0 < negative_count)%nat then
    append_if_absent (py "understanding")
      (insert_front_if_absent (py "apologetic") base_tones)
  else if decide (negative_count < positive_count ∧ 0 < positive_count)%nat
  then append_if_absent (py "friendly") base_tones
  else base_tones.

Inductive Sentiment := negative | positive | neutral.

(** The dictionary [_run] returns.  [primary_tone] is [base_tones[0]]:
    [None] stands for the [IndexError] on an empty list.  The confidence
    is a rational: the rounding of the float product is not modelled. *)
Record Tone := {
  primary_tone : option str;
  secondary_tones : list str;
  emotional_sentiment : Sentiment;
  urgency_detected : bool;
  vip_customer : bool;
  tone_confidence : Q
}.

(** [sender_history.get("vip_status", False)] under [if sender_history]. *)
Definition vip (sender_history : option (gmap str bool)) : bool :=
  match sender_history with
  | Some h =>
      if decide (h = ∅) then false else default false (h !! py "vip_status")
  | None => false
  end.

(** [_run] as a state transformer over the mapping of the tool object:
    the result, and the mapping the call leaves behind. *)
Definition _run (mapping : gmap str (list str)) (email_content : str)
    (intent : str) (sender_history : option (gmap str bool))
    : Tone * gmap str (list str) :=
  let content_lower := lower email_content in
  let negative_count := count_in NEGATIVE_INDICATORS content_lower in
  let positive_count := count_in POSITIVE_INDICATORS content_lower in
  let base_tones :=
    adjust negative_count positive_count
           (default [py "professional"] (mapping !! intent)) in
  let mapping' :=
    match mapping !! intent with
    | Some _ => <[intent := base_tones]> mapping
    | None => mapping
    end in
  ({| primary_tone := head base_tones;
      secondary_tones := tail base_tones;
      emotional_sentiment :=
        if decide (positive_count < negative_count)%nat then negative
        else if decide (0 < positive_count)%nat then positive
        else neutral;
      urgency_detected :=
        existsb (fun indicator => contains indicator content_lower)
                urgency_indicators;
      vip_customer := vip sender_history;
      tone_confidence :=
        Qmin 1 (inject_Z (Z.of_nat (length base_tones + negative_count
                                    + positive_count)) * (2 # 10))%Q |},
   mapping').

End ToneAnalysisTool.

(** ** [context_retriever.py]: the retrieval pipeline *)

Module RetrievalPipeline.

Import BaseAgent.

(** The dictionary of a search: three parallel lists. *)
Record SearchResults := {
  sr_contexts : list str;
  sr_sources : list str;
  sr_scores : list Q
}.

Definition no_results : SearchResults :=
  {| sr_contexts := []; sr_sources := []; sr_scores := [] |}.

(** A document found by the vector store with its score: the page
    content, the ['source'] entry of its metadata if it has one, and
    [float(score)]. *)
Definition Hit : Type := str * option str * Q.

(** [VectorSearchTool._run].  [results] is the outcome of
    [similarity_search_with_score]: the hits, or [None] when it raises. *)
Definition vector_search_run (results : option (list Hit)) : SearchResults :=
  match results with
  | Some hits =>
      {| sr_contexts := map (λ hit, hit.1.1) hits;
         sr_sources := map (λ hit, default (py "Unknown") hit.1.2) hits;
         sr_scores := map (λ hit, hit.2) hits |}
  | None => no_results
  end.

(** [_search_vector_db]: the store answers a query (the intent filter is
    part of the store's answer). *)
Definition _search_vector_db (store : str → option (list Hit)) (query : str)
    : SearchResults :=
  vector_search_run (store query).

(** The accumulation over the expanded queries: [all_contexts],
    [all_sources] and [all_scores], extended when the search found
    contexts. *)
Definition gather (store : str → option (list Hit)) (queries : list str)
    : SearchResults :=
  foldl (λ acc query,
           let found := _search_vector_db store query in
           match sr_contexts found with
           | [] => acc
           | _ :: _ =>
               {| sr_contexts := sr_contexts acc ++ sr_contexts found;
                  sr_sources := sr_sources acc ++ sr_sources found;
                  sr_scores := sr_scores acc ++ sr_scores found |}
           end)
        no_results queries.

Definition max_contexts : nat := 10.

(** The [data] of a successful retrieval (the average in the metadata is
    a float quotient and is left out). *)
Record Retrieval := {
  contexts : list str;
  sources : list str;
  scores : list Q;
  total_contexts : nat;
  query_expansion : list str;
  search_query : str;
  total_retrieved : nat;
  after_deduplication : nat;
  after_filtering : nat;
  final_count : nat
}.

Inductive Outcome :=
| Retrieved (data : Retrieval)
| Failed (error : str).

(** [ContextRetrieverAgent.process].  [query_llm] and [expansion_llm] are
    the outcomes of the two model calls of the planner, [judge] the
    outcome of scoring each context. *)
Definition process (query_llm expansion_llm : option str)
    (store : str → option (list Hit))
    (judge : nat → str → ContextFilterTool.Rating) (state : AgentState)
    : Outcome :=
  match email_content state with
  | Some (c :: r) =>
      let query :=
        ContextRetrieverAgent.generate_search_query query_llm (subject state)
                                                    (c :: r) in
      let expanded := ContextRetrieverAgent._expand_query expansion_llm query in
      let all := gather store expanded in
      let unique :=
        ContextRetrieverAgent._deduplicate_contexts
          (sr_contexts all) (sr_sources all) (sr_scores all) in
      let filtered :=
        ContextFilterTool._run judge (ContextRetrieverAgent.contexts unique) in
      let final_contexts :=
        take max_contexts (ContextFilterTool.filtered_contexts filtered) in
      let final_sources :=
        take (length final_contexts) (ContextRetrieverAgent.sources unique) in
      let final_scores :=
        take (length final_contexts) (ContextFilterTool.scores filtered) in
      Retrieved
        {| contexts := final_contexts; sources := final_sources;
           scores := final_scores;
           total_contexts := length final_contexts;
           query_expansion := expanded; search_query := query;
           total_retrieved := length (sr_contexts all);
           after_deduplication :=
             length (ContextRetrieverAgent.contexts unique);
           after_filtering :=
             length (ContextFilterTool.filtered_contexts filtered);
           final_count := length final_contexts |}
  | _ => Failed (py "No email content provided for context retrieval")
  end.

End RetrievalPipeline.

(** ** [intent_classifier.py]: intent scores and their distribution *)

Module IntentClassifierAgent.

(** [KeywordAnalysisTool.INTENT_KEYWORDS], in the order of the literal. *)
Definition INTENT_KEYWORDS : list (str * list str) :=
  [ (py "question",
     map py ["how"; "what"; "when"; "where"; "why"; "which"; "who";
             "can you"; "could you"; "would you"; "do you know";
             "help me understand"; "clarify"; "explain"; "?";
             "wondering"; "curious"; "confused"; "unclear"]%string);
    (py "complaint",
     map py ["disappointed"; "frustrated"; "angry"; "upset"; "dissatisfied";
             "problem"; "issue"; "bug"; "error"; "broken"; "not working";
             "terrible"; "awful"; "horrible"; "worst"; "bad experience";
             "complain"; "complaint"; "unacceptable";
             "poor service"]%string);
    (py "escalation",
     map py ["urgent"; "emergency"; "asap"; "immediately"; "critical";
             "manager"; "supervisor"; "escalate"; "higher up";
             "legal action"; "lawsuit"; "attorney"; "lawyer";
             "unresolved"; "no response"; "ignored"; "deadline"]%string);
    (py "request",
     map py ["please"; "can you"; "could you"; "would you"; "need";
             "want"; "require"; "request"; "asking for"; "looking for";
             "help with"; "assistance"; "support"; "provide";
             "send"]%string) ].

(** The keywords that count twice. *)
Definition heavy : list str :=
  map py ["urgent"; "emergency"; "asap"; "complaint"]%string.

(** The inner loop of [KeywordAnalysisTool._run]: the matches and the
    score of one intent. *)
Fixpoint scan (keywords : list str) (content_lower : str)
    : list str * nat :=
  match keywords with
  | [] => ([], 0)
  | keyword :: rest =>
      let '(matches, score) := scan rest content_lower in
      if contains keyword content_lower then
        (keyword :: matches,
         (if decide (keyword ∈ heavy) then 2 else 1) + score)
      else (matches, score)
  end.

(** The ["intent_scores"] and ["found_keywords"] entries of the result,
    in the order of the dictionary. *)
Definition intent_scores (email_content : str) : list (str * nat) :=
  map (λ entry, (entry.1, (scan entry.2 (lower email_content)).2))
      INTENT_KEYWORDS.

Definition found_keywords (email_content : str) : list (str * list str) :=
  map (λ entry, (entry.1, (scan entry.2 (lower email_content)).1))
      INTENT_KEYWORDS.

(** [max(d, key=d.get)] over the rest of the keys: the first key with
    the largest value. *)
Fixpoint max_from (best : str * nat) (rest : list (str * nat)) : str * nat :=
  match rest with
  | [] => best
  | entry :: rest =>
      if best.2 <? entry.2 then max_from entry rest else max_from best rest
  end.

(** One iteration of [analyze_intent_distribution]; [None] is the
    [KeyError] of [results[primary_intent] += 1]. *)
Definition count_email (results : gmap str nat) (email : str)
    : option (gmap str nat) :=
  match intent_scores email with
  | [] => Some results
  | entry :: rest =>
      let primary_intent := (max_from entry rest).1 in
      n ← results !! primary_intent;
      Some (<[primary_intent := n + 1]> results)
  end.

Definition no_counts : gmap str nat :=
  list_to_map [ (py "question", 0); (py "complaint", 0);
                (py "escalation", 0); (py "request", 0) ].

Fixpoint count_emails (results : gmap str nat) (email_batch : list str)
    : option (gmap str nat) :=
  match email_batch with
  | [] => Some results
  | email :: rest =>
      results' ← count_email results email;
      count_emails results' rest
  end.

Definition analyze_intent_distribution (email_batch : list str)
    : option (gmap str nat) :=
  count_emails no_counts email_batch.

End IntentClassifierAgent.

(** ** Notions used to state the properties *)

Module Notions.

Import BaseAgent.

(** An optional string that holds at least one character. *)
Definition nonempty (o : option str) : Prop :=
  ∃ c r, o = Some (c :: r).

(** The text holds the line [Action: name] directly followed by a line
    that starts with [Action Input: ], the name being a non-empty run of
    word characters. *)
Definition action_shape (text : str) : Prop :=
  ∃ before name after,
    text = before ++ py "Action: " ++ name
                  ++ "010"%char :: py "Action Input: " ++ after
    ∧ name ≠ [] ∧ Forall (fun c => isword c = true) name.

(** What a failed act phase is: no executor to run the pending action
    with, or an executor that raises on it. *)
Definition act_fails (tool_executor : option ToolExecutor) (a : AgentAction)
    : Prop :=
  match tool_executor with
  | None => True
  | Some executor => ∃ e, executor (tool a) (tool_input a) = inr e
  end.

(** An executor that knows one tool and raises on every other name. *)
Definition lookup_only : ToolExecutor :=
  fun name input =>
    if decide (name = py "vector_search") then inl (py "3 results")
    else inr (py "tool not found").

(** A request for a tool that [lookup_only] does not know, and a state
    in which it is pending. *)
Definition web_search : AgentAction :=
  {| tool := py "web_search"; tool_input := py "refund policy";
     log := py "Action: web_search
Action Input: refund policy" |}.

Definition pending_web_search : AgentState :=
  {| email_content := Some (py "Hi"); sender := None; subject := None;
     intent := None; context := None; messages := [log web_search];
     actions := [web_search]; action_results := [];
     current_action := Some web_search; final_answer := None;
     response := None; steps_taken := None; tools_used := [];
     error := None |}.

(** A state whose final answer is the empty string. *)
Definition empty_final_answer : AgentState :=
  {| email_content := Some (py "Hi"); sender := None; subject := None;
     intent := None; context := None; messages := []; actions := [];
     action_results := []; current_action := None;
     final_answer := Some []; response := None; steps_taken := None;
     tools_used := []; error := None |}.

(** The state of a run on a received message. *)
Definition received (subject : option str) (body : str) : AgentState :=
  {| email_content := Some body; sender := None; subject := subject;
     intent := None; context := None; messages := []; actions := [];
     action_results := []; current_action := None; final_answer := None;
     response := None; steps_taken := None; tools_used := [];
     error := None |}.

(** The keys of a list in the order of their first occurrence. *)
Fixpoint first_occurrences (l : list str) : list str :=
  match l with
  | [] => []
  | x :: r => x :: filter (λ y, y ≠ x) (first_occurrences r)
  end.

(** The keywords of one urgency tier, and whether a text has one of them. *)
Definition tier (level : string) : list str :=
  match list_find (λ t, t.1 = py level) KeywordAnalysisTool.URGENCY_KEYWORDS with
  | Some (_, (_, keywords)) => keywords
  | None => []
  end.

Definition in_tier (level : string) (email_content : str) : Prop :=
  KeywordAnalysisTool.any_in (tier level) (lower email_content) = true.

(** A retrieved passage: one position of the three parallel lists. *)
Record Passage := {
  p_text : str;
  p_source : str;
  p_score : Q
}.

Definition p_key (p : Passage) : str :=
  ContextRetrieverAgent.context_key (p_text p).

(** The streaming reduce in the words of the design: the first passage
    with a key is kept at the end of the list; a later one with the same
    key takes the place of the kept one when it scores strictly higher
    and is dropped otherwise. *)
Fixpoint keep (kept : list Passage) (p : Passage) : list Passage :=
  match kept with
  | [] => [p]
  | x :: rest =>
      if decide (p_key x = p_key p)
      then (if Qlt_le_dec (p_score x) (p_score p) then p :: rest
            else x :: rest)
      else x :: keep rest p
  end.

(** The passages of three lists of the same length, and back. *)
Fixpoint passages (texts sources : list str) (scores : list Q)
    : list Passage :=
  match texts, sources, scores with
  | t :: texts, s :: sources, q :: scores =>
      {| p_text := t; p_source := s; p_score := q |}
        :: passages texts sources scores
  | _, _, _ => []
  end.

(** De-duplication on passages: the code run on the three columns. *)
Definition deduplicate (l : list Passage) : list Passage :=
  let d := ContextRetrieverAgent._deduplicate_contexts
             (p_text <$> l) (p_source <$> l) (p_score <$> l) in
  passages (ContextRetrieverAgent.contexts d)
           (ContextRetrieverAgent.sources d)
           (ContextRetrieverAgent.scores d).

(** The state of the loop holds the kept passages [kept]: the three
    lists are its columns and [seen_contexts] sends each key to the
    position of the passage that has it. *)
Definition represents (st : ContextRetrieverAgent.DedupState)
    (kept : list Passage) : Prop :=
  ContextRetrieverAgent.unique_contexts st = p_text <$> kept
  ∧ ContextRetrieverAgent.unique_sources st = p_source <$> kept
  ∧ ContextRetrieverAgent.unique_scores st = p_score <$> kept
  ∧ ∀ k j, ContextRetrieverAgent.seen_contexts st !! k = Some j
           ↔ ∃ p, kept !! j = Some p ∧ p_key p = k.

(** The order of the ranked contexts: a higher score comes first, and of
    two equal scores the one from the earlier position. *)
Definition ranked_before (a b : ContextFilterTool.Scored) : Prop :=
  (ContextFilterTool.score b < ContextFilterTool.score a)%Q
  ∨ (ContextFilterTool.score a == ContextFilterTool.score b)%Q
    ∧ ContextFilterTool.index a < ContextFilterTool.index b.

(** [x] is the record the scoring loop makes at its position. *)
Definition scored_by (llm : nat → str → ContextFilterTool.Rating)
    (contexts : list str) (x : ContextFilterTool.Scored) : Prop :=
  contexts !! ContextFilterTool.index x = Some (ContextFilterTool.context x)
  ∧ ContextFilterTool.score x
    = ContextFilterTool.score_of
        (llm (ContextFilterTool.index x)
             (slice_to 1000 (ContextFilterTool.context x))).

(** The words the keyword fallback keeps, before they are joined. *)
Definition keywords (email_content : str) : list str :=
  take 5 (filter (λ word, (word ∉ ContextRetrieverAgent.stop_words)
                          ∧ (3 < length word)%nat)
                 (split_ws (lower email_content))).

(** A word as [str.split()] yields them: not empty, no whitespace. *)
Definition is_token (w : str) : Prop :=
  w ≠ [] ∧ Forall (λ c, isspace c = false) w.

(** The state of the loop after the contexts [done]: it holds kept
    passages whose texts come from [done], one for each key of [done]. *)
Definition covers (done : list str) (st : ContextRetrieverAgent.DedupState)
    : Prop :=
  ∃ kept, represents st kept
          ∧ (∀ x, x ∈ kept → p_text x ∈ done)
          ∧ (∀ c, c ∈ done →
                  ContextRetrieverAgent.context_key c ∈ p_key <$> kept)
          ∧ length kept ≤ length done.

(** The hits of a search as passages. *)
Definition hit_passage (hit : RetrievalPipeline.Hit) : Passage :=
  {| p_text := hit.1.1; p_source := default (py "Unknown") hit.1.2;
     p_score := hit.2 |}.

(** The keys of the distribution. *)
Definition intents : list str :=
  map py ["question"; "complaint"; "escalation"; "request"]%string.

(** The count a distribution holds for an intent. *)
Definition counted (results : gmap str nat) (intent : string) : nat :=
  default 0 (results !! py intent).

(** The e-mails counted by a distribution. *)
Definition counted_total (results : gmap str nat) : nat :=
  counted results "question" + counted results "complaint"
  + counted results "escalation" + counted results "request".

(** No keyword of any intent occurs in the text. *)
Definition no_intent_keyword (email : str) : Prop :=
  Forall (λ entry, entry.2 = 0) (IntentClassifierAgent.intent_scores email).

(** A call of the tone analyser: the text, the intent and the history. *)
Definition ToneCall : Type := str * str * option (gmap str bool).

(** The mapping a tool object holds after a sequence of calls. *)
Definition after_calls (calls : list ToneCall)
    (mapping : gmap str (list str)) : gmap str (list str) :=
  foldl (λ m call, (ToneAnalysisTool._run m call.1.1 call.1.2 call.2).2)
        mapping calls.

(** The text has more negative than positive indicators. *)
Definition sounds_negative (email_content : str) : Prop :=
  ToneAnalysisTool.count_in ToneAnalysisTool.POSITIVE_INDICATORS
    (lower email_content)
  < ToneAnalysisTool.count_in ToneAnalysisTool.NEGATIVE_INDICATORS
      (lower email_content).

(** What holds of every list of a mapping the tool can reach: it is not
    empty, and ["apologetic"], once in it, is its first tone. *)
Definition tones_ok (mapping : gmap str (list str)) : Prop :=
  ∀ k l, mapping !! k = Some l →
         l ≠ [] ∧ (py "apologetic" ∈ l → head l = Some (py "apologetic")).

End Notions.

(* ===================================================================== *)
(** * Part II.  Properties                                                *)
(* ===================================================================== *)

(** ** The reasoning loop *)

Section reasoning_loop.

Import BaseAgent Notions.

Lemma truthy_nonempty (o : option str) : truthy o = true ↔ nonempty o.
Proof.
  split.
  - destruct o as [[|c r]|]; simpl; try discriminate. intros _. by exists c, r.
  - intros (c & r & ->). reflexivity.
Qed.

Lemma truthy_None_or_empty (o : option str) :
  truthy o = false ↔ o = None ∨ o = Some [].
Proof.
  destruct o as [[|c r]|]; simpl; split; try done; auto.
  intros [?|?]; discriminate.
Qed.

Lemma strip_prefix_Some (p s r : str) :
  strip_prefix p s = Some r ↔ s = p ++ r.
Proof.
  revert s. induction p as [|a p IH]; intros s; simpl.
  - split; [intros [= ->]|intros ->]; done.
  - destruct s as [|b s]; [split; discriminate|].
    destruct (decide (a = b)) as [->|Hne].
    + rewrite IH. split; [intros ->|intros [= ->]]; done.
    + split; [discriminate|]. intros [= -> ->]. done.
Qed.

Lemma span_word_spec (s w r : str) :
  span_word s = (w, r) →
  s = w ++ r ∧ Forall (fun c => isword c = true) w.
Proof.
  revert w r. induction s as [|c s IH]; intros w r; simpl.
  - intros [= <- <-]. auto.
  - destruct (isword c) eqn:Hc.
    + destruct (span_word s) as [w' r'] eqn:Hs. intros [= <- <-].
      destruct (IH _ _ eq_refl) as [-> Hw]. split; [done|].
      by constructor.
    + intros [= <- <-]. auto.
Qed.

Lemma span_word_run (name rest : str) (c : ascii) :
  Forall (fun c => isword c = true) name → isword c = false →
  span_word (name ++ c :: rest) = (name, c :: rest).
Proof.
  intros Hname Hc. induction Hname as [|a name Ha _ IH]; simpl.
  - by rewrite Hc.
  - by rewrite Ha, IH.
Qed.

Lemma match_action_at_sound (s g1 g2 : str) :
  match_action_at s = Some (g1, g2) →
  ∃ after, s = py "Action: " ++ g1 ++ "010"%char :: py "Action Input: " ++ after
           ∧ g1 ≠ [] ∧ Forall (fun c => isword c = true) g1
           ∧ g2 = upto_newline after.
Proof.
  unfold match_action_at.
  destruct (strip_prefix (py "Action: ") s) as [r1|] eqn:H1; [|done].
  destruct (span_word r1) as [name r2] eqn:H2.
  destruct name as [|c name]; [done|].
  destruct (strip_prefix _ r2) as [r3|] eqn:H3; [|done].
  intros [= <- <-].
  apply strip_prefix_Some in H1, H3. apply span_word_spec in H2 as [-> Hw].
  subst. by exists r3.
Qed.

Lemma match_action_at_complete (name after : str) :
  name ≠ [] → Forall (fun c => isword c = true) name →
  match_action_at
    (py "Action: " ++ name ++ "010"%char :: py "Action Input: " ++ after)
  = Some (name, upto_newline after).
Proof.
  intros Hne Hw. unfold match_action_at.
  rewrite (proj2 (strip_prefix_Some _ _ _) eq_refl).
  rewrite span_word_run by done.
  destruct name as [|c name]; [done|].
  change ("010"%char :: py "Action Input: " ++ after)
    with (("010"%char :: py "Action Input: ") ++ after).
  by rewrite (proj2 (strip_prefix_Some _ _ after) eq_refl).
Qed.

Lemma search_action_unfold (s : str) :
  search_action s =
    match match_action_at s with
    | Some m => Some m
    | None => match s with [] => None | _ :: r => search_action r end
    end.
Proof. by destruct s. Qed.

Lemma search_action_sound (s : str) (m : str * str) :
  search_action s = Some m → action_shape s.
Proof.
  induction s as [|c s IH]; rewrite search_action_unfold.
  - destruct (match_action_at []) as [[g1 g2]|] eqn:Hm; [|done].
    intros _. apply match_action_at_sound in Hm as (after & Hs & ? & ? & _).
    by exists [], g1, after.
  - destruct (match_action_at (c :: s)) as [[g1 g2]|] eqn:Hm.
    + intros _.
      apply match_action_at_sound in Hm as (after & Hs & ? & ? & _).
      by exists [], g1, after.
    + intros (before & name & after & -> & ? & ?)%IH.
      by exists (c :: before), name, after.
Qed.

Lemma search_action_complete (s : str) :
  action_shape s → is_Some (search_action s).
Proof.
  intros (before & name & after & -> & Hne & Hw).
  induction before as [|c before IH]; rewrite search_action_unfold.
  - rewrite app_nil_l. by rewrite match_action_at_complete.
  - destruct (match_action_at _); [done|]. exact IH.
Qed.

Lemma contains_app_l (sub before s : str) :
  contains sub s = true → contains sub (before ++ s) = true.
Proof.
  intros H. induction before as [|c before IH]; [done|].
  simpl. rewrite IH. apply orb_true_r.
Qed.

Lemma startswith_app (p s : str) : startswith p (p ++ s) = true.
Proof.
  induction p as [|c p IH]; simpl; [done|]. by rewrite decide_True.
Qed.

Lemma contains_startswith (sub s : str) :
  startswith sub s = true → contains sub s = true.
Proof. intros H. destruct s; simpl; by rewrite H. Qed.

Lemma action_shape_contains (s : str) :
  action_shape s → contains (py "Action:") s = true.
Proof.
  intros (before & name & after & -> & _). apply contains_app_l.
  apply contains_startswith.
  change (py "Action: ") with (py "Action:" ++ py " ").
  rewrite <- app_assoc. apply startswith_app.
Qed.

(** The parser never returns: whatever the text, it ends in a call of a
    constructor without [log]. *)
Lemma parse_llm_response_raises (no_log : str → str) (response : str) :
  ∃ cls, _parse_llm_response no_log response = inr (no_log cls).
Proof.
  unfold _parse_llm_response, new_AgentAction, new_AgentFinish.
  destruct (contains _ _); [|by eexists].
  destruct (search_action _) as [[g1 g2]|]; by eexists.
Qed.

End reasoning_loop.

Section reasoning_loop_claims.

Import BaseAgent Notions.

(** C2 (as amended).  The router is total and decides in the order
    error, final answer, pending action: a non-empty [error] gives
    [ERROR]; otherwise a non-empty [final_answer] gives [FINAL];
    otherwise a pending action gives [ACT]; otherwise the result is
    [ERROR].  An [error] or [final_answer] that is [None] or the empty
    string does not count as set. *)
Theorem route_priority (state : AgentState) :
  (nonempty (error state) → _route_agent_step state = ERROR)
  ∧ (¬ nonempty (error state) → nonempty (final_answer state) →
     _route_agent_step state = FINAL)
  ∧ (¬ nonempty (error state) → ¬ nonempty (final_answer state) →
     is_Some (current_action state) → _route_agent_step state = ACT)
  ∧ (¬ nonempty (error state) → ¬ nonempty (final_answer state) →
     current_action state = None → _route_agent_step state = ERROR)
  ∧ (_route_agent_step state = ACT ∨ _route_agent_step state = FINAL
     ∨ _route_agent_step state = ERROR).
Proof.
  unfold _route_agent_step.
  rewrite <- !truthy_nonempty.
  destruct (truthy (error state)), (truthy (final_answer state)),
    (current_action state) as [a|];
    repeat split; intros; try done; auto;
    match goal with H : is_Some None |- _ => by destruct H end.
Qed.

(** The empty string is a final answer that is not null, and it does not
    count as set: the state has no error and a final answer, and the
    router answers [ERROR], not [FINAL]. *)
Lemma route_empty_final_answer :
  error empty_final_answer = None
  ∧ final_answer empty_final_answer ≠ None
  ∧ _route_agent_step empty_final_answer ≠ FINAL.
Proof. vm_compute. repeat split; discriminate. Qed.

(** C1 (as amended).  When the act phase fails on a pending action, the
    post-state has a non-empty [error] and is otherwise the pre-state: the
    pending action is still there, and no result or observation was
    recorded. *)
Theorem execute_action_failure (tool_executor : option ToolExecutor)
    (state : AgentState) (a : AgentAction) :
  current_action state = Some a →
  act_fails tool_executor a →
  let state' := _execute_action tool_executor state in
  nonempty (error state')
  ∧ current_action state' = Some a
  ∧ action_results state' = action_results state
  ∧ messages state' = messages state
  ∧ final_answer state' = final_answer state
  ∧ _route_agent_step state' = ERROR.
Proof.
  intros Ha Hfail. unfold _execute_action, _route_agent_step. rewrite Ha.
  destruct tool_executor as [executor|]; simpl in Hfail.
  - destruct Hfail as [e ->]. repeat split; try done.
    eexists _, _. reflexivity.
  - repeat split; try done. eexists _, _. reflexivity.
Qed.

Lemma execute_action_failure_witness :
  current_action pending_web_search = Some web_search
  ∧ nonempty (error (_execute_action (Some lookup_only) pending_web_search))
  ∧ current_action (_execute_action (Some lookup_only) pending_web_search)
    = Some web_search
  ∧ _route_agent_step (_execute_action (Some lookup_only) pending_web_search)
    = ERROR.
Proof.
  split; [reflexivity|].
  pose proof (execute_action_failure (Some lookup_only) pending_web_search
                web_search eq_refl) as H.
  destruct H as (He & Hc & _ & _ & _ & Hr).
  - exists (py "tool not found"). reflexivity.
  - split; [exact He|]. split; [exact Hc | exact Hr].
Defined.

(** The pending action survives the failure: on a state with a pending
    request for a tool the executor does not know, the act phase fails,
    [error] is set and [current_action] is not null. *)
Lemma execute_action_keeps_pending :
  let state' := _execute_action (Some lookup_only) pending_web_search in
  is_Some (current_action pending_web_search)
  ∧ act_fails (Some lookup_only) web_search
  ∧ ¬ (error state' ≠ None ∧ current_action state' = None).
Proof.
  split; [by eexists|]. split.
  - exists (py "tool not found"). reflexivity.
  - intros [_ H]. vm_compute in H. discriminate.
Qed.

(** C10 (defect of the code).  The parser returns neither an action nor
    a final answer: on every decision text it raises.  A text whose
    trimmed form has the shape of an action ends in the call of
    [AgentAction] without [log]; every other text, with or without the
    marker [Action:], ends in the call of [AgentFinish] without [log],
    where a final answer was to be returned. *)
Theorem parse_always_raises (no_log : str → str) (response : str) :
  (action_shape (strip response)
   ∧ _parse_llm_response no_log response = inr (no_log (py "AgentAction")))
  ∨ (¬ action_shape (strip response)
     ∧ _parse_llm_response no_log response = inr (no_log (py "AgentFinish"))).
Proof.
  unfold _parse_llm_response, new_AgentAction, new_AgentFinish.
  destruct (contains _ _) eqn:Hmark.
  - destruct (search_action (strip response)) as [[g1 g2]|] eqn:Hs.
    + left. split; [|done]. by eapply search_action_sound.
    + right. split; [|done].
      intros [m Hm]%search_action_complete. congruence.
  - right. split; [|done]. intros H%action_shape_contains. congruence.
Qed.

(** The text ["Final Answer: We ship in 3 days."] is not returned as a
    final answer. *)
Lemma parse_final_answer_raises (no_log : str → str) :
  _parse_llm_response no_log (py "Final Answer: We ship in 3 days.")
  = inr (no_log (py "AgentFinish")).
Proof. reflexivity. Qed.

End reasoning_loop_claims.

(** ** The query planner *)

Section query_planner.

Import BaseAgent Notions ContextRetrieverAgent.

Lemma filter_filter_ne (P : str → Prop) `{!∀ y, Decision (P y)}
    (x : str) (l : list str) :
  ¬ P x →
  filter P (filter (λ y, y ≠ x) l) = filter P l.
Proof.
  intros Hx. induction l as [|y l IH]; [done|].
  rewrite (filter_cons (λ y, y ≠ x)), (filter_cons P).
  destruct (decide (y ≠ x)) as [Hy|Hy].
  - rewrite filter_cons, IH. done.
  - apply dec_stable in Hy as ->. rewrite IH.
    by destruct (decide (P x)).
Qed.

Lemma filter_not_in_snoc (acc : list str) (x : str) (l : list str) :
  filter (λ y, y ∉ acc ++ [x]) l
  = filter (λ y, y ∉ acc) (filter (λ y, y ≠ x) l).
Proof.
  induction l as [|y l IH]; [done|].
  destruct (decide (y = x)) as [->|Hne].
  - rewrite filter_cons_False
      by (rewrite elem_of_app, list_elem_of_singleton; tauto).
    rewrite (filter_cons_False (λ y, y ≠ x)) by tauto. done.
  - rewrite (filter_cons_True (λ y, y ≠ x)) by done.
    destruct (decide (y ∈ acc)).
    + rewrite !filter_cons_False
        by (rewrite ?elem_of_app, ?list_elem_of_singleton; tauto).
      done.
    + rewrite !filter_cons_True
        by (rewrite ?elem_of_app, ?list_elem_of_singleton; tauto).
      by rewrite IH.
Qed.

Lemma dict_fromkeys_from (acc l : list str) :
  foldl (λ acc k, if decide (k ∈ acc) then acc else acc ++ [k]) acc l
  = acc ++ filter (λ y, y ∉ acc) (first_occurrences l).
Proof.
  revert acc. induction l as [|x l IH]; intros acc; simpl.
  - by rewrite app_nil_r.
  - rewrite IH. destruct (decide (x ∈ acc)) as [Hin|Hout].
    + rewrite filter_cons_False by tauto.
      rewrite filter_filter_ne by tauto. done.
    + rewrite filter_cons_True by done. rewrite <- app_assoc. simpl.
      by rewrite filter_not_in_snoc.
Qed.

Lemma dict_fromkeys_first_occurrences (l : list str) :
  dict_fromkeys l = first_occurrences l.
Proof.
  unfold dict_fromkeys. rewrite dict_fromkeys_from. simpl.
  induction (first_occurrences l) as [|y l' IH]; [done|].
  rewrite filter_cons, decide_True by apply not_elem_of_nil.
  by rewrite IH.
Qed.

Lemma first_occurrences_elem_of (x : str) (l : list str) :
  x ∈ first_occurrences l ↔ x ∈ l.
Proof.
  induction l as [|y l IH]; simpl; [done|].
  rewrite !elem_of_cons, list_elem_of_filter, IH.
  destruct (decide (x = y)); tauto.
Qed.

Lemma first_occurrences_NoDup (l : list str) : NoDup (first_occurrences l).
Proof.
  induction l as [|x l IH]; simpl; constructor.
  - rewrite list_elem_of_filter. tauto.
  - by apply NoDup_filter.
Qed.

(** C5.  Whatever the expansion call does, the expanded queries start
    with the primary query, hold no string twice, and are the primary
    query followed by the alternatives, each at its first occurrence; when
    the expansion fails, in the model call or around the tool, the result
    is the primary query alone. *)
Theorem expand_query_primary_first_nodup (llm : option str)
    (original_query : str) :
  head (_expand_query llm original_query) = Some original_query
  ∧ NoDup (_expand_query llm original_query)
  ∧ _expand_query llm original_query
    = first_occurrences
        (original_query :: QueryExpansionTool._run llm original_query)
  ∧ (∀ x, x ∈ _expand_query llm original_query ↔
          x = original_query ∨ x ∈ QueryExpansionTool._run llm original_query)
  ∧ _expand_query None original_query = [original_query]
  ∧ expand_with None original_query = [original_query].
Proof.
  unfold _expand_query, expand_with.
  rewrite !dict_fromkeys_first_occurrences.
  split; [done|]. split; [apply first_occurrences_NoDup|].
  split; [done|]. split.
  - intros x. by rewrite first_occurrences_elem_of, elem_of_cons.
  - split; [|done]. cbn [QueryExpansionTool._run first_occurrences].
    by rewrite filter_cons_False by tauto.
Qed.

(** C6 (as amended).  When the model replies, a trimmed reply of fewer
    than three characters is replaced by the keyword query, whatever that
    is, and a longer one is returned as it is; when the model call fails,
    the query is the subject if there is one, else the first 50 characters
    of the body, and so is not empty when the subject or the body is
    not. *)
Theorem generate_search_query_fallbacks (llm : option str)
    (state : AgentState) (body : str) :
  email_content state = Some body →
  (∀ content, llm = Some content → length (strip content) < 3 →
     _generate_search_query llm state = Some (keyword_query body))
  ∧ (∀ content, llm = Some content → 3 ≤ length (strip content) →
     _generate_search_query llm state = Some (strip content))
  ∧ (llm = None → nonempty (subject state) →
     _generate_search_query llm state = subject state)
  ∧ (llm = None → ¬ nonempty (subject state) →
     _generate_search_query llm state = Some (slice_to 50 body))
  ∧ (llm = None → nonempty (subject state) ∨ body ≠ [] →
     ∃ c r, _generate_search_query llm state = Some (c :: r)).
Proof.
  intros Hbody. unfold _generate_search_query, generate_search_query.
  rewrite Hbody. repeat split.
  - intros content -> Hlen%Nat.ltb_lt.
    by rewrite Hlen, orb_true_r.
  - intros content -> Hlen.
    rewrite (proj2 (Nat.ltb_ge _ _) Hlen), orb_false_r.
    rewrite bool_decide_eq_false_2; [done|].
    intros Hs. rewrite Hs in Hlen. simpl in Hlen. lia.
  - intros -> (c & r & ->). done.
  - intros -> Hsub. unfold fallback_query.
    destruct (subject state) as [[|c r]|]; try done.
    destruct Hsub. by exists c, r.
  - intros -> Hne. unfold fallback_query.
    destruct (subject state) as [[|c r]|]; [| by exists c, r |].
    + destruct Hne as [(c & r & [=])|Hne]. destruct body; [done|].
      by eexists _, _.
    + destruct Hne as [(c & r & [=])|Hne]. destruct body; [done|].
      by eexists _, _.
Qed.

End query_planner.

Section query_planner_examples.

Import BaseAgent Notions ContextRetrieverAgent.

Lemma generate_search_query_fallbacks_witness :
  email_content (received (Some (py "Refund")) (py "Where is it?"))
  = Some (py "Where is it?")
  ∧ _generate_search_query None
      (received (Some (py "Refund")) (py "Where is it?"))
    = Some (py "Refund")
  ∧ _generate_search_query (Some (py " ok "))
      (received (Some (py "Refund")) (py "Where is it?"))
    = Some (py "where").
Proof.
  split; [reflexivity|].
  destruct (generate_search_query_fallbacks None
              (received (Some (py "Refund")) (py "Where is it?"))
              (py "Where is it?") eq_refl) as (_ & _ & Hsub & _).
  destruct (generate_search_query_fallbacks (Some (py " ok "))
              (received (Some (py "Refund")) (py "Where is it?"))
              (py "Where is it?") eq_refl) as (Hshort & _).
  split.
  - rewrite Hsub; [reflexivity | reflexivity | by eexists _, _].
  - rewrite (Hshort (py " ok ") eq_refl); [reflexivity|].
    vm_compute. lia.
Defined.

(** The keyword query can be empty, and it is returned as it is: on the
    body ["Hi"] with the subject ["Hello"] and an empty reply of the
    model, the query is the empty string, not the subject. *)
Lemma generate_search_query_empty :
  let state := received (Some (py "Hello")) (py "Hi") in
  nonempty (subject state)
  ∧ keyword_query (py "Hi") = []
  ∧ _generate_search_query (Some []) state = Some []
  ∧ _generate_search_query (Some []) state ≠ subject state.
Proof.
  repeat split; try reflexivity.
  - by eexists _, _.
  - vm_compute. discriminate.
Qed.

End query_planner_examples.

(** ** Keyword signals *)

Section urgency.

Import Notions KeywordAnalysisTool.

Lemma urgency_loop_three (h m l : list str) (text : str) :
  urgency_loop [(py "high", h); (py "medium", m); (py "low", l)] text
               (py "low")
  = if any_in h text then py "high"
    else if any_in l text then py "low"
    else if any_in m text then py "medium"
    else py "low".
Proof.
  cbn [urgency_loop].
  destruct (any_in h text), (any_in m text), (any_in l text);
    repeat (destruct (decide _) as [E|E]; try (vm_compute in E; congruence));
    reflexivity.
Qed.

Lemma urgency_tiers (email_content : str) :
  urgency email_content
  = urgency_loop [(py "high", tier "high"); (py "medium", tier "medium");
                  (py "low", tier "low")] (lower email_content) (py "low").
Proof. reflexivity. Qed.

(** C7 (as amended).  A text with a high-tier keyword is ["high"]
    whatever else it holds.  Without one, a low-tier keyword makes it
    ["low"], also when a medium-tier keyword is there; ["medium"] is the
    result when only the medium tier has a keyword; a text with no
    keyword at all is ["low"]. *)
Theorem urgency_precedence (email_content : str) :
  (in_tier "high" email_content → urgency email_content = py "high")
  ∧ (¬ in_tier "high" email_content → in_tier "low" email_content →
     urgency email_content = py "low")
  ∧ (¬ in_tier "high" email_content → ¬ in_tier "low" email_content →
     in_tier "medium" email_content → urgency email_content = py "medium")
  ∧ (¬ in_tier "high" email_content → ¬ in_tier "low" email_content →
     ¬ in_tier "medium" email_content → urgency email_content = py "low").
Proof.
  rewrite urgency_tiers, urgency_loop_three. unfold in_tier.
  destruct (any_in (tier "high") _), (any_in (tier "medium") _),
    (any_in (tier "low") _); repeat split; intros; congruence.
Qed.

(** A medium-tier and a low-tier keyword without a high-tier one give
    ["low"], not ["medium"]: the later tier overwrites the earlier one. *)
Lemma urgency_medium_and_low :
  ¬ in_tier "high" (py "Reply soon, or whenever")
  ∧ in_tier "medium" (py "Reply soon, or whenever")
  ∧ in_tier "low" (py "Reply soon, or whenever")
  ∧ urgency (py "Reply soon, or whenever") ≠ py "medium"
  ∧ urgency (py "Reply soon, or whenever") = py "low".
Proof.
  unfold in_tier. vm_compute. repeat split; try discriminate.
Qed.

End urgency.

(** ** Tone signals *)

Section tone.

Import ToneAnalysisTool.

(** The mapping is untouched by a call whose intent is not one of its
    keys. *)
Lemma tone_run_unknown_intent (mapping : gmap str (list str))
    (email_content intent : str) (sender_history : option (gmap str bool)) :
  mapping !! intent = None →
  (_run mapping email_content intent sender_history).2 = mapping.
Proof. intros H. unfold _run. simpl. by rewrite H. Qed.

(** C8.  The tone analyser is not a function of its arguments alone:
    [dict.get] returns the list stored in [TONE_MAPPING], and the
    adjustment for a negative text is written into that list.  The same
    question is answered ["helpful"] before, and ["apologetic"] after, a
    call on a complaint-like text with the same intent. *)
Theorem tone_run_depends_on_earlier_calls :
  let text := py "Where is my order?" in
  let call1 := _run TONE_MAPPING text (py "question") None in
  let call2 := _run call1.2 (py "This is terrible") (py "question") None in
  let call3 := _run call2.2 text (py "question") None in
  primary_tone call1.1 = Some (py "helpful")
  ∧ primary_tone call3.1 = Some (py "apologetic")
  ∧ call1.1 ≠ call3.1
  ∧ call1.2 !! py "question" = TONE_MAPPING !! py "question"
  ∧ call2.2 !! py "question"
    = Some (map py ["apologetic"; "helpful"; "informative"; "professional";
                    "understanding"]%string).
Proof.
  intros text call1 call2 call3.
  assert (primary_tone call1.1 = Some (py "helpful")) as H1
    by (vm_compute; reflexivity).
  assert (primary_tone call3.1 = Some (py "apologetic")) as H3
    by (vm_compute; reflexivity).
  split; [exact H1|]. split; [exact H3|]. split.
  - intros E. rewrite E, H3 in H1. discriminate H1.
  - split; vm_compute; reflexivity.
Qed.

End tone.

(** ** De-duplication *)

Section deduplication.

Import Notions ContextRetrieverAgent.

Lemma passages_columns (l : list Passage) :
  passages (p_text <$> l) (p_source <$> l) (p_score <$> l) = l.
Proof.
  induction l as [|[t s q] l IH]; csimpl; [done|]. by rewrite IH.
Qed.

(** *** The reduce on passages *)

Lemma keep_fresh (kept : list Passage) (p : Passage) :
  p_key p ∉ p_key <$> kept → keep kept p = kept ++ [p].
Proof.
  induction kept as [|x kept IH]; csimpl; [done|].
  rewrite not_elem_of_cons. intros [Hx Hk].
  rewrite decide_False by done. by rewrite IH.
Qed.

Lemma keep_found (kept : list Passage) (p x : Passage) (j : nat) :
  NoDup (p_key <$> kept) → kept !! j = Some x → p_key x = p_key p →
  keep kept p = if Qlt_le_dec (p_score x) (p_score p) then <[j:=p]> kept
                else kept.
Proof.
  revert j. induction kept as [|y kept IH]; intros j; csimpl; [done|].
  rewrite NoDup_cons. intros [Hy Hnd] Hj Hkey.
  destruct j as [|j]; simpl in Hj.
  - injection Hj as ->. rewrite decide_True by done.
    by destruct (Qlt_le_dec _ _).
  - rewrite decide_False.
    + rewrite (IH j) by done. by destruct (Qlt_le_dec _ _).
    + intros E. apply Hy. rewrite E, <- Hkey.
      apply list_elem_of_fmap_2. by eapply list_elem_of_lookup_2.
Qed.

Lemma keep_keys (kept : list Passage) (p : Passage) :
  p_key <$> (keep kept p)
  = if decide (p_key p ∈ p_key <$> kept) then p_key <$> kept
    else (p_key <$> kept) ++ [p_key p].
Proof.
  induction kept as [|x kept IH].
  - case_decide as H; [by apply elem_of_nil in H | done].
  - cbn [keep]. rewrite (fmap_cons p_key x kept).
    destruct (decide (p_key x = p_key p)) as [E|E].
    + rewrite decide_True by (rewrite E; apply list_elem_of_here).
      destruct (Qlt_le_dec _ _); rewrite fmap_cons; by rewrite ?E.
    + rewrite fmap_cons, IH.
      destruct (decide (p_key p ∈ p_key <$> kept)) as [Hin|Hout].
      * by rewrite decide_True by by apply list_elem_of_further.
      * rewrite decide_False; [done|].
        rewrite not_elem_of_cons. split; [congruence | done].
Qed.


Lemma foldl_keep_NoDup (l kept : list Passage) :
  NoDup (p_key <$> kept) → NoDup (p_key <$> foldl keep kept l).
Proof.
  revert kept. induction l as [|p l IH]; intros kept Hnd; csimpl; [done|].
  apply IH. rewrite keep_keys. destruct (decide _) as [Hin|Hout]; [done|].
  apply NoDup_app. split; [done|]. split.
  - intros k Hk ->%list_elem_of_singleton. done.
  - apply NoDup_singleton.
Qed.

Lemma foldl_keep_distinct (l kept : list Passage) :
  NoDup (p_key <$> (kept ++ l)) → foldl keep kept l = kept ++ l.
Proof.
  revert kept. induction l as [|p l IH]; intros kept Hnd; csimpl.
  - by rewrite app_nil_r.
  - replace (kept ++ p :: l) with ((kept ++ [p]) ++ l) in *
      by by rewrite <- app_assoc.
    rewrite keep_fresh; [by apply IH|].
    rewrite !fmap_app in Hnd. apply NoDup_app in Hnd as [Hnd _].
    apply NoDup_app in Hnd as (_ & Hdisj & _).
    intros Hin. apply (Hdisj _ Hin). csimpl. apply list_elem_of_here.
Qed.

(** *** The state of the loop *)

Lemma assign_lt {A} (i : nat) (x : A) (l : list A) :
  i < length l → assign i x l = Some (<[i:=x]> l).
Proof. intros H. unfold assign. by rewrite decide_True. Qed.

Lemma represents_init : represents dedup_init [].
Proof.
  repeat split; try done.
  intros (p & Hp & _). by rewrite lookup_nil in Hp.
Qed.

Lemma represents_NoDup (st : DedupState) (kept : list Passage) :
  represents st kept → NoDup (p_key <$> kept).
Proof.
  intros (_ & _ & _ & Hseen). apply NoDup_alt. intros i j k.
  rewrite !list_lookup_fmap.
  destruct (kept !! i) as [x|] eqn:Hi; [|done].
  destruct (kept !! j) as [y|] eqn:Hj; [|done].
  intros [= <-] [= Hy].
  assert (seen_contexts st !! p_key x = Some i) as H1
    by (apply Hseen; eauto).
  assert (seen_contexts st !! p_key x = Some j) as H2
    by (apply Hseen; eauto).
  congruence.
Qed.

Lemma represents_seen (st : DedupState) (kept : list Passage) (k : str)
    (j : nat) :
  represents st kept → seen_contexts st !! k = Some j →
  ∃ x, kept !! j = Some x ∧ p_key x = k
       ∧ unique_scores st !! j = Some (p_score x)
       ∧ j < length (unique_contexts st)
       ∧ j < length (unique_sources st)
       ∧ j < length (unique_scores st).
Proof.
  intros (Hc & Hs & Hq & Hseen) (x & Hx & Hk)%Hseen.
  exists x. rewrite Hc, Hs, Hq, !length_fmap, list_lookup_fmap, Hx.
  pose proof (lookup_lt_Some _ _ _ Hx). done.
Qed.

Lemma represents_unseen (st : DedupState) (kept : list Passage) (k : str) :
  represents st kept → seen_contexts st !! k = None → k ∉ p_key <$> kept.
Proof.
  intros (_ & _ & _ & Hseen) Hnone (x & -> & Hx)%list_elem_of_fmap.
  apply list_elem_of_lookup in Hx as [j Hj].
  assert (seen_contexts st !! p_key x = Some j) by (apply Hseen; eauto).
  congruence.
Qed.

Lemma represents_fresh (st : DedupState) (kept : list Passage)
    (p : Passage) :
  represents st kept → seen_contexts st !! p_key p = None →
  represents
    {| seen_contexts :=
         <[p_key p := length (unique_contexts st)]> (seen_contexts st);
       unique_contexts := unique_contexts st ++ [p_text p];
       unique_sources := unique_sources st ++ [p_source p];
       unique_scores := unique_scores st ++ [p_score p] |}
    (kept ++ [p]).
Proof.
  intros Hrep Hnone. pose proof (represents_unseen _ _ _ Hrep Hnone) as Hout.
  destruct Hrep as (Hc & Hs & Hq & Hseen). unfold represents.
  cbn [seen_contexts unique_contexts unique_sources unique_scores].
  rewrite Hc, Hs, Hq, !fmap_app, length_fmap. repeat split; try done.
  - destruct (decide (p_key p = k)) as [<-|Hne].
    + rewrite lookup_insert_eq. intros [= <-]. exists p.
      by rewrite list_lookup_middle.
    + rewrite lookup_insert_ne by done. intros (x & Hx & Hk)%Hseen.
      exists x. split; [|done]. by apply lookup_app_l_Some.
  - intros (x & Hx & Hk).
    apply lookup_snoc_Some in Hx as [[Hlt Hx]|[-> ->]].
    + assert (p_key p ≠ k) as Hne.
      { intros E. apply Hout. rewrite E, <- Hk.
        apply list_elem_of_fmap_2. by eapply list_elem_of_lookup_2. }
      rewrite lookup_insert_ne by done. apply Hseen. eauto.
    + rewrite Hk. by rewrite lookup_insert_eq.
Qed.

Lemma represents_replace (st : DedupState) (kept : list Passage)
    (p : Passage) (j : nat) :
  represents st kept → seen_contexts st !! p_key p = Some j →
  represents
    {| seen_contexts := seen_contexts st;
       unique_contexts := <[j:=p_text p]> (unique_contexts st);
       unique_sources := <[j:=p_source p]> (unique_sources st);
       unique_scores := <[j:=p_score p]> (unique_scores st) |}
    (<[j:=p]> kept).
Proof.
  intros Hrep Hj.
  destruct (represents_seen _ _ _ _ Hrep Hj) as (x & Hx & Hk & _).
  destruct Hrep as (Hc & Hs & Hq & Hseen). unfold represents.
  cbn [seen_contexts unique_contexts unique_sources unique_scores].
  rewrite Hc, Hs, Hq, !list_fmap_insert. repeat split; try done.
  - intros Hi. destruct (decide (j = j0)) as [<-|Hne].
    + exists p. split.
      * apply list_lookup_insert_eq. by eapply lookup_lt_Some.
      * apply Hseen in Hi as (y & Hy & <-). congruence.
    + apply Hseen in Hi as (y & Hy & Hyk). exists y.
      by rewrite list_lookup_insert_ne.
  - intros (y & Hy & Hyk). destruct (decide (j = j0)) as [<-|Hne].
    + rewrite list_lookup_insert_eq in Hy by by eapply lookup_lt_Some.
      injection Hy as <-. congruence.
    + rewrite list_lookup_insert_ne in Hy by done. apply Hseen. eauto.
Qed.

(** *** One iteration, and the loop *)

(** Whatever the three lists are, an iteration that does not raise leaves
    a state that holds some list of kept passages. *)
Lemma dedup_step_represents (sources : list str) (scores : list Q)
    (st st' : DedupState) (kept : list Passage) (i : nat) (context : str) :
  represents st kept →
  dedup_step sources scores st i context = Some st' →
  ∃ kept', represents st' kept'.
Proof.
  intros Hrep. unfold dedup_step.
  destruct (seen_contexts st !! context_key context) as [j|] eqn:Hkey.
  - destruct (scores !! i) as [score|]; [|intros [= <-]; eauto].
    destruct (unique_scores st !! j) as [old|]; [|intros [= <-]; eauto].
    destruct (Qlt_le_dec old score); [|intros [= <-]; eauto].
    destruct (represents_seen _ _ _ _ Hrep Hkey)
      as (x & _ & _ & _ & Hlc & Hls & Hlq).
    rewrite (assign_lt _ _ _ Hlc). csimpl.
    destruct (sources !! i) as [source|]; [|done]. csimpl.
    rewrite (assign_lt _ _ _ Hls), (assign_lt _ _ _ Hlq). csimpl.
    intros [= <-].
    exists (<[j:={| p_text := context; p_source := source;
                    p_score := score |}]> kept).
    by apply (represents_replace st kept
                {| p_text := context; p_source := source;
                   p_score := score |}).
  - intros [= <-].
    exists (kept ++ [{| p_text := context;
                        p_source := default (py "Unknown") (sources !! i);
                        p_score := default (1 # 2)%Q (scores !! i) |}]).
    by apply (represents_fresh st kept
                {| p_text := context;
                   p_source := default (py "Unknown") (sources !! i);
                   p_score := default (1 # 2)%Q (scores !! i) |}).
Qed.

Lemma dedup_loop_represents (sources : list str) (scores : list Q)
    (contexts : list str) (i : nat) (st st' : DedupState)
    (kept : list Passage) :
  represents st kept →
  dedup_loop sources scores i contexts st = Some st' →
  ∃ kept', represents st' kept'.
Proof.
  revert i st kept.
  induction contexts as [|context contexts IH]; intros i st kept Hrep.
  - intros [= <-]. eauto.
  - cbn [dedup_loop].
    destruct (dedup_step sources scores st i context) as [st1|] eqn:Hstep;
      [|done].
    destruct (dedup_step_represents _ _ _ _ _ _ _ Hrep Hstep) as [kept1 H1].
    csimpl. by apply (IH _ _ kept1).
Qed.

(** On the columns of a list of passages an iteration does not raise, and
    it is one step of the reduce. *)
Lemma dedup_step_keep (sources : list str) (scores : list Q)
    (st : DedupState) (kept : list Passage) (i : nat) (p : Passage) :
  represents st kept →
  sources !! i = Some (p_source p) → scores !! i = Some (p_score p) →
  ∃ st', dedup_step sources scores st i (p_text p) = Some st'
         ∧ represents st' (keep kept p).
Proof.
  intros Hrep Hsource Hscore. unfold dedup_step. rewrite Hsource, Hscore.
  fold (p_key p).
  destruct (seen_contexts st !! p_key p) as [j|] eqn:Hkey.
  - destruct (represents_seen _ _ _ _ Hrep Hkey)
      as (x & Hx & Hk & Hold & Hlc & Hls & Hlq).
    rewrite Hold, (keep_found kept p x j)
      by eauto using represents_NoDup.
    destruct (Qlt_le_dec (p_score x) (p_score p)); [|eauto].
    rewrite (assign_lt _ _ _ Hlc). csimpl.
    rewrite (assign_lt _ _ _ Hls), (assign_lt _ _ _ Hlq). csimpl.
    eexists. split; [done|]. by apply represents_replace.
  - rewrite keep_fresh by eauto using represents_unseen. csimpl.
    eexists. split; [done|]. destruct p. by apply represents_fresh.
Qed.

Lemma dedup_loop_keep (suffix prefix : list Passage) (st : DedupState)
    (kept : list Passage) :
  represents st kept →
  ∃ st', dedup_loop (p_source <$> prefix ++ suffix)
                    (p_score <$> prefix ++ suffix)
                    (length prefix) (p_text <$> suffix) st = Some st'
         ∧ represents st' (foldl keep kept suffix).
Proof.
  revert prefix st kept.
  induction suffix as [|p suffix IH]; intros prefix st kept Hrep.
  - exists st. done.
  - rewrite fmap_cons. cbn [dedup_loop foldl].
    destruct (dedup_step_keep (p_source <$> prefix ++ p :: suffix)
                (p_score <$> prefix ++ p :: suffix) st kept
                (length prefix) p Hrep) as (st1 & -> & H1).
    + by rewrite list_lookup_fmap, list_lookup_middle.
    + by rewrite list_lookup_fmap, list_lookup_middle.
    + csimpl. specialize (IH (prefix ++ [p]) st1 _ H1).
      rewrite <- app_assoc, length_app, Nat.add_1_r in IH. exact IH.
Qed.

(** The code on the columns of a list of passages is the reduce. *)
Lemma deduplicate_foldl_keep (l : list Passage) :
  deduplicate l = foldl keep [] l.
Proof.
  unfold deduplicate, _deduplicate_contexts.
  destruct (dedup_loop_keep l [] dedup_init [] represents_init)
    as (st & Hloop & Hc & Hs & Hq & _).
  simpl in Hloop. rewrite Hloop. cbn [contexts sources scores].
  rewrite Hc, Hs, Hq. apply passages_columns.
Qed.

End deduplication.

Section deduplication_claims.

Import Notions ContextRetrieverAgent.

Lemma deduplicate_snoc (l : list Passage) (p : Passage) :
  deduplicate (l ++ [p]) = keep (deduplicate l) p.
Proof. by rewrite !deduplicate_foldl_keep, foldl_snoc. Qed.




(** C9.  De-duplication is idempotent on every input, whatever the
    lengths of the three lists: run on its own output, it returns that
    output, with the same texts, sources and scores in the same order. *)
Theorem deduplicate_contexts_idempotent (texts origins : list str)
    (ratings : list Q) :
  _deduplicate_contexts
    (contexts (_deduplicate_contexts texts origins ratings))
    (sources (_deduplicate_contexts texts origins ratings))
    (scores (_deduplicate_contexts texts origins ratings))
  = _deduplicate_contexts texts origins ratings.
Proof.
  unfold _deduplicate_contexts at 2 3 4 5.
  destruct (dedup_loop origins ratings 0 texts dedup_init) as [st|] eqn:Hloop.
  - destruct (dedup_loop_represents _ _ _ _ _ _ _ represents_init Hloop)
      as (kept & Hrep).
    pose proof (represents_NoDup _ _ Hrep) as Hnd.
    destruct Hrep as (Hc & Hs & Hq & _).
    cbn [contexts sources scores]. rewrite Hc, Hs, Hq.
    unfold _deduplicate_contexts.
    destruct (dedup_loop_keep kept [] dedup_init [] represents_init)
      as (st2 & Hloop2 & Hc2 & Hs2 & Hq2 & _).
    simpl in Hloop2. rewrite Hloop2.
    rewrite (foldl_keep_distinct kept []) in Hc2, Hs2, Hq2 by done.
    by rewrite Hc2, Hs2, Hq2.
  - cbn [contexts sources scores]. unfold _deduplicate_contexts.
    by rewrite Hloop.
Qed.

End deduplication_claims.

(** ** Relevance filtering *)

Section relevance_filter.

Import Notions ContextFilterTool.

Variable llm : nat → str → Rating.

Lemma score_from_elem_of (contexts : list str) (i : nat) (x : Scored) :
  x ∈ score_from llm i contexts
  ↔ i ≤ index x
    ∧ contexts !! (index x - i) = Some (context x)
    ∧ score x = score_of (llm (index x) (slice_to 1000 (context x))).
Proof.
  revert i. induction contexts as [|c contexts IH]; intros i; simpl.
  - rewrite elem_of_nil. split; [done|]. by intros (_ & ? & _).
  - rewrite elem_of_cons, IH. split.
    + intros [->|(Hle & Hc & Hs)]; simpl.
      * by rewrite Nat.sub_diag.
      * split; [lia|]. split; [|done].
        by replace (index x - i) with (S (index x - S i)) by lia.
    + intros (Hle & Hc & Hs). destruct (decide (index x = i)) as [E|E].
      * left. rewrite E, Nat.sub_diag in Hc. simpl in Hc.
        injection Hc as Hc. destruct x as [xc xs xi]; simpl in *.
        by subst.
      * right. split; [lia|]. split; [|done].
        by replace (index x - i) with (S (index x - S i)) in Hc by lia.
Qed.

Lemma length_score_from (contexts : list str) (i : nat) :
  length (score_from llm i contexts) = length contexts.
Proof.
  revert i. induction contexts as [|c contexts IH]; intros i; simpl; auto.
Qed.

Lemma elem_of_insert_desc (x y : Scored) (l : list Scored) :
  y ∈ insert_desc x l ↔ y = x ∨ y ∈ l.
Proof.
  induction l as [|z l IH]; simpl.
  - rewrite list_elem_of_singleton, elem_of_nil. tauto.
  - destruct (Qlt_le_dec _ _); rewrite !elem_of_cons, ?IH; tauto.
Qed.

Lemma length_insert_desc (x : Scored) (l : list Scored) :
  length (insert_desc x l) = S (length l).
Proof.
  induction l as [|z l IH]; simpl; [done|].
  destruct (Qlt_le_dec _ _); simpl; auto.
Qed.

Lemma elem_of_sort_desc (y : Scored) (l : list Scored) :
  y ∈ sort_desc l ↔ y ∈ l.
Proof.
  induction l as [|x l IH]; simpl; [done|].
  by rewrite elem_of_insert_desc, elem_of_cons, IH.
Qed.

Lemma length_sort_desc (l : list Scored) : length (sort_desc l) = length l.
Proof.
  induction l as [|x l IH]; simpl; [done|].
  by rewrite length_insert_desc, IH.
Qed.

Lemma ranked_before_le (a b : Scored) :
  ranked_before a b → (score b <= score a)%Q.
Proof.
  intros [Hlt|[Heq _]]; [by apply Qlt_le_weak|].
  rewrite Heq. apply Qle_refl.
Qed.

Lemma ranked_before_intro (a b : Scored) :
  (score b <= score a)%Q → index a < index b → ranked_before a b.
Proof.
  intros Hle Hidx. destruct (Qlt_le_dec (score b) (score a)) as [Hlt|Hge].
  - by left.
  - right. split; [by apply Qle_antisym | done].
Qed.

Lemma insert_desc_sorted (x : Scored) (l : list Scored) :
  StronglySorted ranked_before l →
  Forall (λ y, index x < index y) l →
  StronglySorted ranked_before (insert_desc x l).
Proof.
  induction 1 as [|y l Hsorted IH Hy]; intros Hidx; simpl.
  - by repeat constructor.
  - apply Forall_cons in Hidx as [Hxy Hidx].
    destruct (Qlt_le_dec (score x) (score y)) as [Hlt|Hge].
    + constructor; [by apply IH|].
      apply Forall_forall. intros z [->|Hz]%elem_of_insert_desc.
      * by left.
      * by eapply Forall_forall in Hy.
    + constructor; [by constructor|].
      constructor; [by apply ranked_before_intro|].
      apply Forall_forall. intros z Hz.
      apply ranked_before_intro.
      * apply Qle_trans with (score y); [|done].
        apply ranked_before_le. by eapply Forall_forall in Hy.
      * by eapply Forall_forall in Hidx.
Qed.

Lemma sort_desc_score_from_sorted (contexts : list str) (i : nat) :
  StronglySorted ranked_before (sort_desc (score_from llm i contexts)).
Proof.
  revert i. induction contexts as [|c contexts IH]; intros i; simpl.
  - constructor.
  - apply insert_desc_sorted; [apply IH|].
    apply Forall_forall. intros y Hy. simpl.
    apply elem_of_sort_desc, score_from_elem_of in Hy as [Hle _]. lia.
Qed.

Lemma filter_sorted (f : Scored → bool) (l : list Scored) :
  StronglySorted ranked_before l →
  StronglySorted ranked_before (List.filter f l).
Proof.
  induction 1 as [|y l Hsorted IH Hy]; simpl; [constructor|].
  destruct (f y); [|done]. constructor; [done|].
  apply Forall_forall. intros z Hz%list_elem_of_In%filter_In.
  destruct Hz as [Hz%list_elem_of_In _]. by eapply Forall_forall in Hy.
Qed.

Lemma keeps_threshold (x : Scored) : keeps x = true ↔ (6 <= score x)%Q.
Proof.
  unfold keeps. destruct (Qlt_le_dec (score x) 6) as [Hlt|Hge].
  - split; [done|]. intros Hge. by apply Qle_not_lt in Hge.
  - done.
Qed.

Lemma elem_of_filtered (contexts : list str) (x : Scored) :
  x ∈ filtered llm contexts
  ↔ scored_by llm contexts x ∧ (6 <= score x)%Q.
Proof.
  unfold filtered, scored_by.
  rewrite list_elem_of_In, filter_In, <- list_elem_of_In.
  rewrite elem_of_sort_desc, score_from_elem_of, keeps_threshold.
  rewrite Nat.sub_0_r. split; [tauto|]. intros [[? ?] ?].
  repeat split; try done. lia.
Qed.

Lemma length_filtered (contexts : list str) :
  length (filtered llm contexts) ≤ length contexts.
Proof.
  unfold filtered.
  etrans; [apply List.filter_length_le|].
  by rewrite length_sort_desc, length_score_from.
Qed.

(** C4.  The contexts kept by the relevance filter are ranked by score,
    highest first, equal scores in the order of their positions in the
    input; the kept ones are exactly the scored contexts with a score of
    at least 6; there are at most as many as contexts given.  The
    dictionary returned lists their texts, scores and positions in that
    order.  On no contexts the kept list is empty and the average is 0.
    The function is total: nothing is raised. *)
Theorem filter_run_ranked_threshold (contexts : list str) :
  StronglySorted ranked_before (filtered llm contexts)
  ∧ Forall (λ x, (6 <= score x)%Q) (filtered llm contexts)
  ∧ (∀ x, x ∈ filtered llm contexts
          ↔ scored_by llm contexts x ∧ (6 <= score x)%Q)
  ∧ filtered_contexts (_run llm contexts) = context <$> filtered llm contexts
  ∧ scores (_run llm contexts) = score <$> filtered llm contexts
  ∧ original_indices (_run llm contexts) = index <$> filtered llm contexts
  ∧ total_filtered (_run llm contexts) = length (filtered_contexts (_run llm contexts))
  ∧ length (filtered_contexts (_run llm contexts)) ≤ length contexts
  ∧ _run llm []
    = {| filtered_contexts := []; scores := []; original_indices := [];
         total_filtered := 0; avg_score := 0%Q |}.
Proof.
  split; [apply filter_sorted, sort_desc_score_from_sorted|].
  split.
  { apply Forall_forall. intros x Hx. by apply elem_of_filtered in Hx as [_ ?]. }
  split; [apply elem_of_filtered|].
  repeat split; try done.
  - cbn [_run filtered_contexts total_filtered]. by rewrite length_map.
  - cbn [_run filtered_contexts]. rewrite length_map. apply length_filtered.
Qed.

End relevance_filter.

(** ** More on the reasoning loop *)

Section reasoning_loop_more.

Import BaseAgent Notions.

Lemma isword_not_space (c : ascii) : isword c = true → isspace c = false.
Proof.
  destruct c as [[] [] [] [] [] [] [] []]; vm_compute; congruence.
Qed.

Lemma lstrip_elem_of (c : ascii) (s : str) : c ∈ lstrip s → c ∈ s.
Proof.
  induction s as [|a s IH]; simpl; [done|].
  destruct (isspace a); [|done]. intros H. right. by apply IH.
Qed.

Lemma strip_elem_of (c : ascii) (s : str) : c ∈ strip s → c ∈ s.
Proof.
  unfold strip, rstrip. rewrite list_elem_of_In, <- in_rev, <- list_elem_of_In.
  intros H%lstrip_elem_of. rewrite list_elem_of_In, <- in_rev in H.
  apply lstrip_elem_of. by apply list_elem_of_In.
Qed.

Lemma lstrip_no_space (s : str) :
  Forall (λ c, isspace c = false) s → lstrip s = s.
Proof. destruct 1 as [|c s Hc _]; simpl; [done|]. by rewrite Hc. Qed.

Lemma strip_no_space (s : str) :
  Forall (λ c, isspace c = false) s → strip s = s.
Proof.
  intros H. unfold strip, rstrip. rewrite (lstrip_no_space s H).
  rewrite lstrip_no_space by by apply Forall_rev.
  apply rev_involutive.
Qed.

Lemma lstrip_head (s : str) :
  lstrip s = [] ∨ ∃ c r, lstrip s = c :: r ∧ isspace c = false.
Proof.
  induction s as [|a s IH]; simpl; [by left|].
  destruct (isspace a) eqn:Ha; [done|]. right. by exists a, s.
Qed.

Lemma lstrip_idemp (s : str) : lstrip (lstrip s) = lstrip s.
Proof.
  destruct (lstrip_head s) as [->|(c & r & -> & Hc)]; simpl; [done|].
  by rewrite Hc.
Qed.

Lemma lstrip_snoc (s : str) (c : ascii) :
  isspace c = false → lstrip (s ++ [c]) = lstrip s ++ [c].
Proof.
  intros Hc. induction s as [|a s IH]; simpl; [by rewrite Hc|].
  by destruct (isspace a).
Qed.

Lemma rstrip_cons (c : ascii) (s : str) :
  isspace c = false → rstrip (c :: s) = c :: rstrip s.
Proof.
  intros Hc. unfold rstrip. simpl rev at 2.
  by rewrite lstrip_snoc, rev_unit.
Qed.

Lemma rstrip_idemp (s : str) : rstrip (rstrip s) = rstrip s.
Proof. unfold rstrip. by rewrite rev_involutive, lstrip_idemp. Qed.

(** Trimming is idempotent. *)
Lemma strip_idemp (s : str) : strip (strip s) = strip s.
Proof.
  unfold strip.
  destruct (lstrip_head s) as [->|(c & r & -> & Hc)]; [reflexivity|].
  rewrite rstrip_cons by done. cbn [lstrip]. rewrite Hc.
  by rewrite rstrip_cons, rstrip_idemp.
Qed.

(** *** The nodes *)

Lemma agent_step_error (no_log : str → str) (llm : str + str)
    (state : AgentState) :
  ∃ e, error (_agent_step no_log llm state)
       = Some (py "Agent step failed: " ++ e).
Proof.
  unfold _agent_step. destruct llm as [content|e]; [|by eexists].
  destruct (parse_llm_response_raises no_log content) as [cls ->].
  by eexists.
Qed.

Lemma route_error (state : AgentState) :
  nonempty (error state) → _route_agent_step state = ERROR.
Proof.
  intros H%truthy_nonempty. unfold _route_agent_step. by rewrite H.
Qed.

(** X1.  The agent node never stores a decision.  Whatever the model
    call gives, the state it returns has an error that starts with
    ["Agent step failed: "]; the reply, when there is one, was appended to
    the messages; the pending action, the actions, the results, the final
    answer and the response are those of the state it was given; and the
    router sends that state to [ERROR]. *)
Theorem agent_step_never_decides (no_log : str → str) (llm : str + str)
    (state : AgentState) :
  let state' := _agent_step no_log llm state in
  (∃ e, error state' = Some (py "Agent step failed: " ++ e))
  ∧ messages state'
    = messages state ++ match llm with inl content => [content] | inr _ => [] end
  ∧ current_action state' = current_action state
  ∧ actions state' = actions state
  ∧ action_results state' = action_results state
  ∧ final_answer state' = final_answer state
  ∧ response state' = response state
  ∧ _route_agent_step state' = ERROR.
Proof.
  intros state'. destruct (agent_step_error no_log llm state) as [e He].
  split; [by exists e|].
  assert (_route_agent_step state' = ERROR) as Hroute.
  { apply route_error. subst state'. rewrite He. by eexists _, _. }
  clear He. subst state'. unfold _agent_step in *.
  destruct llm as [content|e'].
  - destruct (parse_llm_response_raises no_log content) as [cls Hp].
    rewrite Hp in *. by repeat split.
  - repeat split; try done. cbn. by rewrite app_nil_r.
Qed.

Lemma error_sticky_execute_action (tool_executor : option ToolExecutor)
    (state : AgentState) :
  nonempty (error state) →
  nonempty (error (_execute_action tool_executor state)).
Proof.
  intros H. unfold _execute_action.
  destruct (current_action state) as [a|], tool_executor as [executor|];
    try by eexists _, _.
  destruct (executor _ _); [done | by eexists _, _].
Qed.

Lemma error_sticky_process_response (state : AgentState) :
  nonempty (error state) → nonempty (error (_process_response state)).
Proof.
  intros H. unfold _process_response.
  destruct (truthy (final_answer state)); [done | by eexists _, _].
Qed.

(** X2.  No node clears an error.  On a state whose [error] is not
    empty, the agent node, the action node and the response node each
    return a state whose [error] is not empty, and the router answers
    [ERROR] before and after each of them. *)
Theorem error_never_cleared (no_log : str → str)
    (tool_executor : option ToolExecutor) (llm : str + str)
    (state : AgentState) :
  nonempty (error state) →
  _route_agent_step state = ERROR
  ∧ nonempty (error (_agent_step no_log llm state))
  ∧ _route_agent_step (_agent_step no_log llm state) = ERROR
  ∧ nonempty (error (_execute_action tool_executor state))
  ∧ _route_agent_step (_execute_action tool_executor state) = ERROR
  ∧ nonempty (error (_process_response state))
  ∧ _route_agent_step (_process_response state) = ERROR.
Proof.
  intros H.
  assert (nonempty (error (_agent_step no_log llm state))) as Hagent.
  { destruct (agent_step_error no_log llm state) as [e ->]. by eexists _, _. }
  pose proof (error_sticky_execute_action tool_executor state H).
  pose proof (error_sticky_process_response state H).
  auto 10 using route_error.
Qed.

Lemma error_never_cleared_witness :
  let failed := _execute_action (Some lookup_only) pending_web_search in
  error failed = Some (py "Action execution failed: tool not found")
  ∧ nonempty (error (_execute_action (Some lookup_only) failed))
  ∧ nonempty (error (_process_response failed))
  ∧ _route_agent_step failed = ERROR.
Proof.
  intros failed. split; [reflexivity|].
  destruct (error_never_cleared (λ cls, cls) (Some lookup_only)
              (inr (py "timeout")) failed) as (Hr & _ & _ & Ha & _ & Hp & _).
  - by eexists _, _.
  - split; [exact Ha|]. split; [exact Hp | exact Hr].
Defined.

End reasoning_loop_more.

(** ** More on the query planner *)

Section query_planner_more.

Import BaseAgent Notions ContextRetrieverAgent.

Lemma split_char_from_no_sep (sep : ascii) (cur s : str) :
  sep ∉ cur → Forall (λ piece, sep ∉ piece) (split_char_from sep cur s).
Proof.
  revert cur. induction s as [|c s IH]; intros cur Hcur; simpl.
  - constructor; [|constructor].
    by rewrite list_elem_of_In, <- in_rev, <- list_elem_of_In.
  - destruct (decide (c = sep)) as [->|Hne].
    + constructor; [|apply IH, not_elem_of_nil].
      by rewrite list_elem_of_In, <- in_rev, <- list_elem_of_In.
    + apply IH. rewrite not_elem_of_cons. split; [congruence | done].
Qed.

Lemma after_first_Some (sep s tail : str) :
  after_first sep s = Some tail → ∃ before, s = before ++ sep ++ tail.
Proof.
  induction s as [|c s IH].
  - cbn [after_first]. destruct (startswith sep []) eqn:Hp; [|done].
    intros [= <-]. exists []. destruct sep; [done | discriminate].
  - cbn [after_first]. destruct (startswith sep (c :: s)) eqn:Hp.
    + intros [= <-]. exists []. simpl app at 1.
      clear IH. revert Hp. generalize (c :: s). clear.
      induction sep as [|a sep IH]; intros l; [done|].
      destruct l as [|b l]; [done|]. simpl.
      destruct (decide (a = b)) as [->|]; [|done].
      intros H. f_equal. by apply IH.
    + intros (before & ->)%IH. by exists (c :: before).
Qed.

Lemma strip_last_no_space (s : str) (c : ascii) :
  last (strip s) = Some c → isspace c = false.
Proof.
  unfold strip, rstrip. rewrite <- (rev_involutive (lstrip s)).
  generalize (rev (lstrip s)). intros t. rewrite rev_involutive.
  destruct (lstrip_head t) as [->|(a & r & -> & Ha)]; [done|].
  simpl rev. rewrite last_snoc. by intros [= <-].
Qed.

Lemma parse_lines_spec (lines : list str) :
  Forall (λ line, "010"%char ∉ line) lines →
  Forall (λ q, q ≠ [] ∧ "010"%char ∉ q) (QueryExpansionTool.parse_lines lines).
Proof.
  induction 1 as [|line lines Hline _ IH]; cbn [QueryExpansionTool.parse_lines];
    [constructor|].
  destruct (strip line) as [|c r] eqn:Hs; [done|].
  destruct (QueryExpansionTool.numbered (c :: r)); [done|].
  assert ("010"%char ∉ c :: r) as Hnl.
  { rewrite <- Hs. intros H%strip_elem_of. done. }
  destruct (after_first (py ". ") (c :: r)) as [tail|] eqn:Ha.
  - constructor; [|done].
    apply after_first_Some in Ha as [before Ha]. split.
    + intros ->. rewrite app_nil_r in Ha.
      assert (last (strip line) = Some " "%char) as Hlast.
      { rewrite Hs, Ha. change (py ". ") with ([("."%char)] ++ [" "%char]).
        by rewrite !app_assoc, last_snoc. }
      apply strip_last_no_space in Hlast. discriminate.
    + rewrite Ha in Hnl. intros Hin. apply Hnl.
      rewrite !elem_of_app. auto.
  - constructor; [|done]. done.
Qed.

(** X6.  The alternative queries read from a reply of the model are at
    most five, and each is a non-empty single line: blank lines are
    dropped, and what follows a [". "] in a trimmed line is never
    empty. *)
Theorem expansion_queries_wellformed (content query : str) :
  length (QueryExpansionTool._run (Some content) query) ≤ 5
  ∧ Forall (λ q, q ≠ [] ∧ "010"%char ∉ q)
           (QueryExpansionTool._run (Some content) query).
Proof.
  cbn [QueryExpansionTool._run]. split.
  - rewrite length_take. lia.
  - apply Forall_take, parse_lines_spec, split_char_from_no_sep,
      not_elem_of_nil.
Qed.

Lemma first_occurrences_length (l : list str) :
  length (first_occurrences l) ≤ length l.
Proof.
  induction l as [|x l IH]; simpl; [done|].
  pose proof (length_filter (λ y, y ≠ x) (first_occurrences l)). lia.
Qed.

(** X7.  The retrieval fan-out is bounded: whatever the expansion call
    returns or raises, between one and six queries are searched, the
    first of them the primary query. *)
Theorem expand_query_fan_out (llm : option str) (original_query : str) :
  1 ≤ length (_expand_query llm original_query) ≤ 6
  ∧ ∀ expansion, 1 ≤ length (expand_with expansion original_query)
      ∧ head (expand_with expansion original_query) = Some original_query.
Proof.
  assert (∀ expansion,
            1 ≤ length (expand_with expansion original_query)
            ∧ head (expand_with expansion original_query)
              = Some original_query) as Hgen.
  { intros [expanded|]; cbn [expand_with]; [|split; [cbn; lia | done]].
    rewrite dict_fromkeys_first_occurrences. cbn. split; [lia | done]. }
  split; [|exact Hgen]. split; [apply Hgen|].
  unfold _expand_query, expand_with.
  rewrite dict_fromkeys_first_occurrences.
  etrans; [apply first_occurrences_length|]. cbn [length].
  destruct llm as [content|]; cbn [QueryExpansionTool._run].
  - rewrite length_take. lia.
  - cbn. lia.
Qed.

End query_planner_more.

(** ** The keyword fallback *)

Section keyword_fallback.

Import Notions ContextRetrieverAgent.

Lemma rev_cons_ne (a : ascii) (l : str) : rev (a :: l) ≠ [].
Proof. simpl. by destruct (rev l). Qed.

Lemma split_ws_from_tokens (cur s : str) :
  Forall (λ c, isspace c = false) cur →
  Forall is_token (split_ws_from cur s).
Proof.
  revert cur. induction s as [|c s IH]; intros cur Hcur; simpl.
  - destruct cur as [|a cur]; [constructor|].
    constructor; [|constructor]. split.
    + apply rev_cons_ne.
    + by apply Forall_rev.
  - destruct (isspace c) eqn:Hc.
    + destruct cur as [|a cur]; [by apply IH|].
      constructor; [|by apply IH]. split.
      * apply rev_cons_ne.
      * by apply Forall_rev.
    + apply IH. by constructor.
Qed.

Lemma split_ws_from_chars (cur s w : str) (c : ascii) :
  w ∈ split_ws_from cur s → c ∈ w → c ∈ cur ∨ c ∈ s.
Proof.
  revert cur. induction s as [|a s IH]; intros cur; simpl.
  - destruct cur as [|b cur]; [by intros ?%elem_of_nil|].
    intros ->%list_elem_of_singleton.
    rewrite list_elem_of_In, <- in_rev, <- list_elem_of_In. auto.
  - destruct (isspace a).
    + destruct cur as [|b cur].
      * intros Hw Hc. destruct (IH _ Hw Hc) as [?%elem_of_nil|?]; [done|].
        right. by right.
      * intros [->|Hw]%elem_of_cons Hc.
        -- rewrite list_elem_of_In, <- in_rev, <- list_elem_of_In in Hc.
           auto.
        -- destruct (IH _ Hw Hc) as [?%elem_of_nil|?]; [done|].
           right. by right.
    + intros Hw Hc. destruct (IH _ Hw Hc) as [[->|?]%elem_of_cons|?].
      * right. by left.
      * by left.
      * right. by right.
Qed.

Lemma split_ws_from_word (w cur rest : str) :
  Forall (λ c, isspace c = false) w →
  split_ws_from cur (w ++ rest) = split_ws_from (rev w ++ cur) rest.
Proof.
  intros Hw. revert cur.
  induction Hw as [|c w Hc _ IH]; intros cur; [done|].
  simpl. rewrite Hc, IH. by rewrite <- app_assoc.
Qed.

Lemma split_ws_from_last (w : str) :
  is_token w → split_ws_from [] w = [w].
Proof.
  intros [Hne Hw]. rewrite <- (app_nil_r w) at 1.
  rewrite split_ws_from_word by done. rewrite app_nil_r.
  destruct w as [|a w]; [done|]. cbn [split_ws_from].
  pose proof (rev_cons_ne a w) as Hr.
  destruct (rev (a :: w)) as [|b r] eqn:E; [done|].
  by rewrite <- E, rev_involutive.
Qed.

Lemma split_ws_from_sep (w rest : str) :
  is_token w →
  split_ws_from [] (w ++ py " " ++ rest) = w :: split_ws_from [] rest.
Proof.
  intros [Hne Hw]. rewrite split_ws_from_word by done. rewrite app_nil_r.
  destruct w as [|a w]; [done|].
  change (py " " ++ rest) with (" "%char :: rest). cbn [split_ws_from].
  change (isspace " ") with true. cbn iota.
  pose proof (rev_cons_ne a w) as Hr.
  destruct (rev (a :: w)) as [|b r] eqn:E; [done|].
  by rewrite <- E, rev_involutive.
Qed.

Lemma join_cons (sep x y : str) (l : list str) :
  join sep (x :: y :: l) = x ++ sep ++ join sep (y :: l).
Proof. reflexivity. Qed.

(** Splitting what was joined with single spaces gives the words back. *)
Lemma split_ws_join (ws : list str) :
  Forall is_token ws → split_ws (join (py " ") ws) = ws.
Proof.
  unfold split_ws. induction 1 as [|w ws Hw Hws IH]; [done|].
  destruct ws as [|w2 ws].
  - by apply split_ws_from_last.
  - rewrite join_cons, split_ws_from_sep by done. by rewrite IH.
Qed.

Lemma lower_char_idemp (c : ascii) : lower_char (lower_char c) = lower_char c.
Proof.
  destruct c as [[] [] [] [] [] [] [] []]; vm_compute; reflexivity.
Qed.

Lemma keywords_spec (email_content : str) :
  length (keywords email_content) ≤ 5
  ∧ Forall (λ w, is_token w ∧ (3 < length w)%nat ∧ (w ∉ stop_words)
                 ∧ lower w = w)
           (keywords email_content).
Proof.
  unfold keywords. split; [rewrite length_take; lia|].
  apply Forall_take, Forall_forall. intros w [[Hstop Hlen] Hw]%list_elem_of_filter.
  repeat split; try done.
  - intros ->. simpl in Hlen. lia.
  - pose proof (split_ws_from_tokens [] (lower email_content)
                  ltac:(constructor)) as Htok.
    rewrite Forall_forall in Htok. by apply Htok.
  - unfold lower. rewrite <- (map_id w) at 2. apply map_ext_in.
    intros c Hc%list_elem_of_In.
    destruct (split_ws_from_chars _ _ _ _ Hw Hc) as [?%elem_of_nil|Hin];
      [done|].
    apply list_elem_of_In, in_map_iff in Hin as (c' & <- & _).
    apply lower_char_idemp.
Qed.

(** X8.  The keyword query is made of at most five words, each longer
    than three characters, in lower case and not a stop word; splitting
    the query on whitespace gives exactly these words back, in order. *)
Theorem keyword_query_words (email_content : str) :
  keyword_query email_content = join (py " ") (keywords email_content)
  ∧ split_ws (keyword_query email_content) = keywords email_content
  ∧ length (split_ws (keyword_query email_content)) ≤ 5
  ∧ Forall (λ w, (3 < length w)%nat ∧ (w ∉ stop_words) ∧ lower w = w
                 ∧ w ∈ split_ws (lower email_content))
           (split_ws (keyword_query email_content)).
Proof.
  destruct (keywords_spec email_content) as [Hlen Hall].
  assert (split_ws (keyword_query email_content) = keywords email_content)
    as Hsplit.
  { apply split_ws_join. eapply Forall_impl; [exact Hall|]. by intros w [? _]. }
  split; [done|]. split; [done|]. rewrite Hsplit. split; [done|].
  apply Forall_forall. intros w Hw.
  rewrite Forall_forall in Hall. destruct (Hall w Hw) as (_ & ? & ? & ?).
  repeat split; try done.
  unfold keywords in Hw. apply elem_of_take in Hw as (i & Hw & _).
  apply list_elem_of_lookup_2, list_elem_of_filter in Hw. tauto.
Qed.

End keyword_fallback.

(** ** More on de-duplication *)

Section deduplication_more.

Import Notions ContextRetrieverAgent.

Lemma keep_elem_of (kept : list Passage) (p x : Passage) :
  x ∈ keep kept p → x ∈ kept ∨ x = p.
Proof.
  induction kept as [|y kept IH]; cbn [keep].
  - intros ->%list_elem_of_singleton. by right.
  - destruct (decide (p_key y = p_key p)).
    + destruct (Qlt_le_dec _ _); rewrite !elem_of_cons; tauto.
    + rewrite !elem_of_cons. intros [->|H]; [auto|].
      destruct (IH H); auto.
Qed.

Lemma keep_covers (kept : list Passage) (p y : Passage) :
  y ∈ kept ∨ y = p →
  ∃ x, x ∈ keep kept p ∧ p_key x = p_key y ∧ (p_score y <= p_score x)%Q.
Proof.
  induction kept as [|z kept IH]; cbn [keep].
  - intros [?%elem_of_nil|Hy]; [done|]. subst y.
    exists p. split; [apply list_elem_of_here|]. split; [done|apply Qle_refl].
  - destruct (decide (p_key z = p_key p)) as [E|E].
    + destruct (Qlt_le_dec (p_score z) (p_score p)) as [Hlt|Hge].
      * intros [[Hy|Hy]%elem_of_cons|Hy].
        -- subst y. exists p. split; [apply list_elem_of_here|].
           split; [done|by apply Qlt_le_weak].
        -- exists y. split; [by apply list_elem_of_further|].
           split; [done|apply Qle_refl].
        -- subst y. exists p. split; [apply list_elem_of_here|].
           split; [done|apply Qle_refl].
      * intros [[Hy|Hy]%elem_of_cons|Hy].
        -- subst y. exists z. split; [apply list_elem_of_here|].
           split; [done|apply Qle_refl].
        -- exists y. split; [by apply list_elem_of_further|].
           split; [done|apply Qle_refl].
        -- subst y. exists z. split; [apply list_elem_of_here|]. done.
    + intros [[Hy|Hy]%elem_of_cons|Hy].
      * subst y. exists z. split; [apply list_elem_of_here|].
        split; [done|apply Qle_refl].
      * destruct IH as (x & ? & ? & ?); [by left|].
        exists x. split; [by apply list_elem_of_further|]. done.
      * destruct IH as (x & ? & ? & ?); [by right|].
        exists x. split; [by apply list_elem_of_further|]. done.
Qed.

Lemma keep_length (kept : list Passage) (p : Passage) :
  length kept ≤ length (keep kept p) ≤ S (length kept).
Proof.
  induction kept as [|z kept IH]; cbn [keep]; [cbn; lia|].
  destruct (decide _); [destruct (Qlt_le_dec _ _); cbn; lia|].
  cbn [length]. lia.
Qed.

Lemma foldl_keep_length (l kept : list Passage) :
  length (foldl keep kept l) ≤ length kept + length l.
Proof.
  revert kept. induction l as [|p l IH]; intros kept; cbn [foldl length];
    [lia|].
  specialize (IH (keep kept p)). pose proof (keep_length kept p). lia.
Qed.

(** X9.  On scores that are numbers (the rationals of the embedding; a
    NaN, which no comparison orders, is outside it), de-duplication keeps
    the best of each group: every passage of the result is a passage of
    the input, and every passage of the input has a passage of the result
    with its key and a score at least as high; the result is never longer
    than the input. *)
Theorem deduplicate_best_of_group (l : list Passage) :
  (∀ x, x ∈ deduplicate l → x ∈ l)
  ∧ (∀ p, p ∈ l →
       ∃ x, x ∈ deduplicate l ∧ p_key x = p_key p
            ∧ (p_score p <= p_score x)%Q)
  ∧ length (deduplicate l) ≤ length l.
Proof.
  induction l as [|p l (Hsub & Hcov & Hlen)] using rev_ind.
  - repeat split; [|by intros p ?%elem_of_nil|].
    + rewrite deduplicate_foldl_keep. done.
    + by rewrite deduplicate_foldl_keep.
  - rewrite deduplicate_snoc. repeat split.
    + intros x [Hx| ->]%keep_elem_of; rewrite elem_of_app.
      * left. by apply Hsub.
      * right. apply list_elem_of_here.
    + intros y [Hy| ->%list_elem_of_singleton]%elem_of_app.
      * destruct (Hcov y Hy) as (x & Hx & Hk & Hs).
        destruct (keep_covers (deduplicate l) p x (or_introl Hx))
          as (x' & ? & ? & ?).
        exists x'. split; [done|]. split; [congruence|].
        by apply Qle_trans with (p_score x).
      * apply keep_covers. by right.
    + rewrite length_app. cbn [length].
      pose proof (keep_length (deduplicate l) p). lia.
Qed.

(** X10.  A list of passages with pairwise distinct keys is returned as
    it is. *)
Theorem deduplicate_distinct_keys (l : list Passage) :
  NoDup (p_key <$> l) → deduplicate l = l.
Proof.
  intros Hnd. rewrite deduplicate_foldl_keep.
  by apply (foldl_keep_distinct l []).
Qed.

Lemma deduplicate_distinct_keys_witness :
  deduplicate [ {| p_text := py "Returns take 30 days"; p_source := py "faq";
                   p_score := 4 |};
                {| p_text := py "Shipping takes 3 days"; p_source := py "faq";
                   p_score := 7 |} ]
  = [ {| p_text := py "Returns take 30 days"; p_source := py "faq";
         p_score := 4 |};
      {| p_text := py "Shipping takes 3 days"; p_source := py "faq";
         p_score := 7 |} ].
Proof.
  apply deduplicate_distinct_keys.
  apply NoDup_cons. split; [|apply NoDup_singleton].
  intros H%list_elem_of_singleton. vm_compute in H. discriminate.
Defined.

End deduplication_more.

(** ** De-duplication on lists of any length *)

Section deduplication_columns.

Import Notions ContextRetrieverAgent.

Lemma elem_of_insert_inv {A} (l : list A) (i : nat) (x y : A) :
  y ∈ <[i:=x]> l → y = x ∨ y ∈ l.
Proof.
  intros [j Hj]%list_elem_of_lookup.
  apply list_lookup_insert_Some in Hj as [(_ & -> & _)|[_ Hj]]; [by left|].
  right. by eapply list_elem_of_lookup_2.
Qed.

Lemma dedup_step_covers (sources : list str) (scores : list Q)
    (st : DedupState) (done : list str) (i : nat) (context : str) :
  covers done st →
  (is_Some (scores !! i) → is_Some (sources !! i)) →
  ∃ st', dedup_step sources scores st i context = Some st'
         ∧ covers (done ++ [context]) st'.
Proof.
  intros (kept & Hrep & Htext & Hkeys & Hlen) Hcols. unfold dedup_step.
  destruct (seen_contexts st !! context_key context) as [j|] eqn:Hkey.
  - destruct (represents_seen _ _ _ _ Hrep Hkey)
      as (x & Hx & Hk & Hold & Hlc & Hls & Hlq).
    assert (covers (done ++ [context]) st) as Hsame.
    { exists kept. split; [done|]. split; [|split].
      - intros y Hy. apply elem_of_app. left. by apply Htext.
      - intros c [Hc| ->%list_elem_of_singleton]%elem_of_app; [by apply Hkeys|].
        rewrite <- Hk. apply list_elem_of_fmap_2.
        by eapply list_elem_of_lookup_2.
      - rewrite length_app. cbn. lia. }
    destruct (scores !! i) as [score|] eqn:Hscore; [|eauto].
    rewrite Hold. destruct (Qlt_le_dec (p_score x) score); [|eauto].
    destruct Hcols as [source Hsource]; [done|]. rewrite Hsource.
    rewrite (assign_lt _ _ _ Hlc). csimpl.
    rewrite (assign_lt _ _ _ Hls), (assign_lt _ _ _ Hlq). csimpl.
    eexists. split; [done|].
    set (p := {| p_text := context; p_source := source; p_score := score |}).
    exists (<[j:=p]> kept). split; [by apply (represents_replace st kept p)|].
    split; [|split].
    + intros y [->|Hy]%elem_of_insert_inv; rewrite elem_of_app.
      * right. apply list_elem_of_here.
      * left. by apply Htext.
    + assert (p_key <$> <[j:=p]> kept = p_key <$> kept) as ->.
      { rewrite list_fmap_insert. apply list_insert_id.
        rewrite list_lookup_fmap, Hx. cbn. by rewrite Hk. }
      intros c [Hc| ->%list_elem_of_singleton]%elem_of_app; [by apply Hkeys|].
      rewrite <- Hk. apply list_elem_of_fmap_2.
      by eapply list_elem_of_lookup_2.
    + rewrite length_insert, length_app. cbn. lia.
  - eexists. split; [done|].
    set (p := {| p_text := context;
                 p_source := default (py "Unknown") (sources !! i);
                 p_score := default (1 # 2)%Q (scores !! i) |}).
    exists (kept ++ [p]). split; [by apply (represents_fresh st kept p)|].
    split; [|split].
    + intros y [Hy| ->%list_elem_of_singleton]%elem_of_app; rewrite elem_of_app.
      * left. by apply Htext.
      * right. apply list_elem_of_here.
    + rewrite fmap_app.
      intros c [Hc| ->%list_elem_of_singleton]%elem_of_app; rewrite elem_of_app.
      * left. by apply Hkeys.
      * right. apply list_elem_of_here.
    + rewrite !length_app. cbn. lia.
Qed.

Lemma dedup_loop_covers (sources : list str) (scores : list Q)
    (contexts : list str) (i : nat) (st : DedupState) (done : list str) :
  covers done st → length scores ≤ length sources →
  ∃ st', dedup_loop sources scores i contexts st = Some st'
         ∧ covers (done ++ contexts) st'.
Proof.
  intros Hcov Hlen. revert i st done Hcov.
  induction contexts as [|context contexts IH]; intros i st done Hcov.
  - exists st. by rewrite app_nil_r.
  - cbn [dedup_loop].
    destruct (dedup_step_covers sources scores st done i context Hcov)
      as (st1 & -> & Hcov1).
    { rewrite !lookup_lt_is_Some. lia. }
    csimpl. destruct (IH (S i) st1 _ Hcov1) as (st' & Hloop & Hcov').
    exists st'. by rewrite <- app_assoc in Hcov'.
Qed.

(** X11.  When there are at least as many sources as scores, the loop
    never raises, whatever the lengths of the three lists: the three
    columns of the result have one length, the keys of the kept contexts
    are pairwise distinct, every kept context is one of the input, every
    input context has its key among the kept ones, and no more contexts
    are kept than were given. *)
Theorem deduplicate_contexts_columns (texts origins : list str)
    (ratings : list Q) :
  length ratings ≤ length origins →
  let d := _deduplicate_contexts texts origins ratings in
  length (sources d) = length (contexts d)
  ∧ length (scores d) = length (contexts d)
  ∧ NoDup (context_key <$> contexts d)
  ∧ (∀ u, u ∈ contexts d → u ∈ texts)
  ∧ (∀ c, c ∈ texts → context_key c ∈ context_key <$> contexts d)
  ∧ length (contexts d) ≤ length texts.
Proof.
  intros Hlen. unfold _deduplicate_contexts.
  destruct (dedup_loop_covers origins ratings texts 0 dedup_init [])
    as (st & -> & kept & Hrep & Htext & Hkeys & Hcount); [|done|].
  { exists []. split; [apply represents_init|].
    split; [by intros x ?%elem_of_nil|].
    split; [by intros c ?%elem_of_nil | done]. }
  pose proof (represents_NoDup _ _ Hrep) as Hnd.
  destruct Hrep as (Hc & Hs & Hq & _). cbn [contexts sources scores].
  rewrite Hc, Hs, Hq, !length_fmap, <- list_fmap_compose.
  repeat split; try done.
  intros u (x & -> & Hx)%list_elem_of_fmap. by apply Htext.
Qed.

Lemma deduplicate_contexts_columns_witness :
  let d := _deduplicate_contexts [py "alpha"; py "beta"; py " alpha"]
             [py "a.txt"] [] in
  contexts d = [py "alpha"; py "beta"]
  ∧ sources d = [py "a.txt"; py "Unknown"]
  ∧ length (scores d) = length (contexts d).
Proof.
  pose proof (deduplicate_contexts_columns
                [py "alpha"; py "beta"; py " alpha"] [py "a.txt"] []) as H.
  destruct H as (_ & Hq & _); [cbn; lia|].
  split; [vm_compute; reflexivity|]. split; [vm_compute; reflexivity|].
  exact Hq.
Defined.

(** X12.  A duplicate that scores higher than the kept passage but has
    no entry in the list of sources makes the loop raise, and the handler
    returns the three input lists as they are: nothing is de-duplicated. *)
Theorem deduplicate_contexts_missing_source (first second origin : str)
    (low high : Q) :
  context_key first = context_key second → (low < high)%Q →
  _deduplicate_contexts [first; second] [origin] [low; high]
  = {| contexts := [first; second]; sources := [origin];
       scores := [low; high] |}.
Proof.
  intros Hkey Hlt. unfold _deduplicate_contexts.
  set (st1 := {| seen_contexts := <[context_key first := 0]> ∅;
                 unique_contexts := [first]; unique_sources := [origin];
                 unique_scores := [low] |}).
  assert (dedup_step [origin] [low; high] dedup_init 0 first = Some st1)
    as H1.
  { unfold dedup_step. cbn [dedup_init seen_contexts]. by rewrite lookup_empty. }
  assert (dedup_step [origin] [low; high] st1 1 second = None) as H2.
  { unfold dedup_step. cbn [st1 seen_contexts unique_scores unique_contexts].
    rewrite <- Hkey, lookup_insert_eq. csimpl.
    destruct (Qlt_le_dec low high) as [_|Hle];
      [done | by apply Qle_not_lt in Hle]. }
  cbn [dedup_loop]. rewrite H1. csimpl. by rewrite H2.
Qed.

Lemma deduplicate_contexts_missing_source_witness :
  _deduplicate_contexts [py "alpha"; py " alpha"] [py "a.txt"] [4%Q; 7%Q]
  = {| contexts := [py "alpha"; py " alpha"]; sources := [py "a.txt"];
       scores := [4%Q; 7%Q] |}.
Proof.
  apply deduplicate_contexts_missing_source; reflexivity.
Defined.

End deduplication_columns.

(** ** The retrieval pipeline *)

Section retrieval_pipeline.

Import BaseAgent Notions RetrievalPipeline.

Lemma clamp_range (x : ContextFilterTool.pyfloat) :
  (1 <= ContextFilterTool.clamp x <= 10)%Q.
Proof.
  unfold ContextFilterTool.clamp, ContextFilterTool.float_lt_lit.
  destruct x as [q| | |]; try (split; discriminate).
  destruct (Qlt_le_dec q 10) as [Hlt|Hge]; [|split; discriminate].
  destruct (Qlt_le_dec 1 q) as [Hgt|Hle]; [|split; discriminate].
  split; by apply Qlt_le_weak.
Qed.

(** X13.  Every relevance score is between 1 and 10, whatever the model
    replies: a number is clamped (an infinity to the nearer bound, a NaN
    to 10), and an unreadable reply or a failed call counts as 5.  The
    scores returned by the filter are therefore between 6 and 10. *)
Theorem relevance_scores_range (llm : nat → str → ContextFilterTool.Rating)
    (contexts : list str) :
  (∀ r, (1 <= ContextFilterTool.score_of r <= 10)%Q)
  ∧ ContextFilterTool.score_of ContextFilterTool.CallFails = 5%Q
  ∧ ContextFilterTool.score_of ContextFilterTool.NotANumber = 5%Q
  ∧ ContextFilterTool.clamp ContextFilterTool.NaN = 10%Q
  ∧ Forall (λ q, (6 <= q <= 10)%Q)
           (ContextFilterTool.scores (ContextFilterTool._run llm contexts)).
Proof.
  assert (∀ r, (1 <= ContextFilterTool.score_of r <= 10)%Q) as Hrange.
  { intros [| |x]; try (split; discriminate). apply clamp_range. }
  split; [done|]. repeat split; try done.
  cbn [ContextFilterTool._run ContextFilterTool.scores].
  apply Forall_forall. intros q Hq.
  apply list_elem_of_In, in_map_iff in Hq as (x & <- & Hx).
  apply list_elem_of_In, elem_of_filtered in Hx as [[_ Hs] Hge].
  split; [done|]. rewrite Hs. apply Hrange.
Qed.

Lemma vector_search_run_passages (results : option (list Hit)) :
  sr_contexts (vector_search_run results)
  = p_text <$> (hit_passage <$> default [] results)
  ∧ sr_sources (vector_search_run results)
    = p_source <$> (hit_passage <$> default [] results)
  ∧ sr_scores (vector_search_run results)
    = p_score <$> (hit_passage <$> default [] results).
Proof.
  destruct results as [hits|]; [|done].
  cbn [vector_search_run sr_contexts sr_sources sr_scores default].
  induction hits as [|hit hits (Hc & Hs & Hq)]; [done|].
  unfold id in *. repeat split; cbn; f_equal; assumption.
Qed.

Lemma gather_passages (store : str → option (list Hit)) (queries : list str) :
  ∃ l, sr_contexts (gather store queries) = p_text <$> l
       ∧ sr_sources (gather store queries) = p_source <$> l
       ∧ sr_scores (gather store queries) = p_score <$> l.
Proof.
  unfold gather.
  assert (∃ l, sr_contexts no_results = p_text <$> l
               ∧ sr_sources no_results = p_source <$> l
               ∧ sr_scores no_results = p_score <$> l) as Hinit
    by by exists [].
  revert Hinit. generalize no_results.
  induction queries as [|query queries IH]; intros acc Hacc; [done|].
  cbn [foldl]. apply IH. destruct Hacc as (l & Hc & Hs & Hq).
  destruct (vector_search_run_passages (store query)) as (Hfc & Hfs & Hfq).
  fold (_search_vector_db store query) in Hfc, Hfs, Hfq.
  destruct (sr_contexts (_search_vector_db store query)) as [|c cs] eqn:Hfound;
    [by exists l|].
  exists (l ++ (hit_passage <$> default [] (store query))).
  cbn [sr_contexts sr_sources sr_scores].
  by rewrite Hc, Hs, Hq, Hfc, Hfs, Hfq, !fmap_app.
Qed.

Lemma deduplicate_contexts_passages (l : list Passage) :
  ContextRetrieverAgent._deduplicate_contexts
    (p_text <$> l) (p_source <$> l) (p_score <$> l)
  = {| ContextRetrieverAgent.contexts := p_text <$> foldl keep [] l;
       ContextRetrieverAgent.sources := p_source <$> foldl keep [] l;
       ContextRetrieverAgent.scores := p_score <$> foldl keep [] l |}.
Proof.
  unfold ContextRetrieverAgent._deduplicate_contexts.
  destruct (dedup_loop_keep l [] ContextRetrieverAgent.dedup_init []
              represents_init) as (st & Hloop & Hc & Hs & Hq & _).
  simpl in Hloop. rewrite Hloop. by rewrite Hc, Hs, Hq.
Qed.

(** X14.  A retrieval on a message with content always succeeds, and its
    counts can only go down along the pipeline: at most ten contexts are
    returned, no more than passed the filter, no more than were left by
    the de-duplication, no more than were retrieved; the three returned
    lists have the reported length, and between one and six queries were
    searched. *)
Theorem process_counts (query_llm expansion_llm : option str)
    (store : str → option (list Hit))
    (judge : nat → str → ContextFilterTool.Rating) (state : AgentState) :
  nonempty (email_content state) →
  ∃ data,
    process query_llm expansion_llm store judge state = Retrieved data
    ∧ final_count data ≤ max_contexts
    ∧ final_count data ≤ after_filtering data
    ∧ after_filtering data ≤ after_deduplication data
    ∧ after_deduplication data ≤ total_retrieved data
    ∧ total_contexts data = final_count data
    ∧ length (contexts data) = final_count data
    ∧ length (sources data) = final_count data
    ∧ length (scores data) = final_count data
    ∧ 1 ≤ length (query_expansion data) ≤ 6
    ∧ head (query_expansion data) = Some (search_query data).
Proof.
  intros (c & r & Hbody). unfold process. rewrite Hbody.
  set (query := ContextRetrieverAgent.generate_search_query _ _ _).
  set (expanded := ContextRetrieverAgent._expand_query _ _).
  destruct (gather_passages store expanded) as (l & Hc & Hs & Hq).
  rewrite Hc, Hs, Hq, deduplicate_contexts_passages.
  cbn [ContextRetrieverAgent.contexts ContextRetrieverAgent.sources].
  set (kept := foldl keep [] l).
  eexists. split; [done|].
  cbn [final_count after_filtering after_deduplication total_retrieved
       total_contexts contexts sources scores query_expansion search_query].
  pose proof (length_filtered judge (p_text <$> kept)) as Hfilter.
  pose proof (foldl_keep_length l []) as Hkeep. fold kept in Hkeep.
  cbn [ContextFilterTool._run ContextFilterTool.filtered_contexts
       ContextFilterTool.scores].
  rewrite ?length_fmap in Hfilter.
  rewrite ?length_take, ?length_map, ?length_fmap, ?length_take.
  cbn [length] in Hkeep. unfold max_contexts.
  repeat split; try lia.
  - subst expanded. unfold ContextRetrieverAgent._expand_query,
      ContextRetrieverAgent.expand_with.
    rewrite dict_fromkeys_first_occurrences. cbn. lia.
  - subst expanded. unfold ContextRetrieverAgent._expand_query,
      ContextRetrieverAgent.expand_with.
    rewrite dict_fromkeys_first_occurrences.
    etrans; [apply first_occurrences_length|]. cbn [length].
    destruct expansion_llm; cbn [QueryExpansionTool._run];
      [rewrite length_take|cbn]; lia.
  - subst expanded. unfold ContextRetrieverAgent._expand_query,
      ContextRetrieverAgent.expand_with.
    by rewrite dict_fromkeys_first_occurrences.
Qed.

Lemma process_counts_witness :
  ∃ data,
    process (Some (py "order delivery time")) None
      (λ _, Some [(py "Orders ship in 3 days", Some (py "faq"), (3 # 10)%Q)])
      (λ _ _, ContextFilterTool.Number (ContextFilterTool.Finite 8))
      (received None (py "Where is my order?")) = Retrieved data
    ∧ final_count data ≤ max_contexts
    ∧ after_deduplication data ≤ total_retrieved data.
Proof.
  destruct (process_counts (Some (py "order delivery time")) None
              (λ _, Some [(py "Orders ship in 3 days", Some (py "faq"),
                           (3 # 10)%Q)])
              (λ _ _, ContextFilterTool.Number (ContextFilterTool.Finite 8))
              (received None (py "Where is my order?")))
    as (data & Hrun & H1 & _ & _ & H4 & _).
  - by eexists _, _.
  - exists data. split; [exact Hrun|]. split; [exact H1 | exact H4].
Defined.

Lemma gather_nothing (store : str → option (list Hit)) (queries : list str) :
  (∀ query, sr_contexts (_search_vector_db store query) = []) →
  gather store queries = no_results.
Proof.
  intros Hnone. unfold gather. generalize no_results.
  induction queries as [|query queries IH]; intros acc; [done|].
  cbn [foldl]. by rewrite Hnone, IH.
Qed.

(** X15.  A search that finds nothing is not an error: when no query
    returns a context (the store is empty, or every search raises), the
    retrieval on a message with content succeeds with no contexts, no
    sources, no scores, and all four counts at zero. *)
Theorem process_nothing_found (query_llm expansion_llm : option str)
    (store : str → option (list Hit))
    (judge : nat → str → ContextFilterTool.Rating) (state : AgentState) :
  nonempty (email_content state) →
  (∀ query, sr_contexts (_search_vector_db store query) = []) →
  ∃ data,
    process query_llm expansion_llm store judge state = Retrieved data
    ∧ contexts data = [] ∧ sources data = [] ∧ scores data = []
    ∧ total_contexts data = 0 ∧ total_retrieved data = 0
    ∧ after_deduplication data = 0 ∧ after_filtering data = 0
    ∧ final_count data = 0.
Proof.
  intros (c & r & Hbody) Hnone. unfold process. rewrite Hbody.
  rewrite (gather_nothing store _ Hnone). eexists. split; [done|].
  repeat split.
Qed.

Lemma process_nothing_found_witness :
  ∃ data,
    process None None (λ _, None) (λ _ _, ContextFilterTool.CallFails)
      (received (Some (py "Order")) (py "Where is my order?"))
    = Retrieved data
    ∧ contexts data = [] ∧ search_query data = py "Order".
Proof.
  destruct (process_nothing_found None None (λ _, None)
              (λ _ _, ContextFilterTool.CallFails)
              (received (Some (py "Order")) (py "Where is my order?")))
    as (data & Hrun & Hc & _).
  - by eexists _, _.
  - done.
  - exists data. split; [exact Hrun|]. split; [exact Hc|].
    vm_compute in Hrun. injection Hrun as <-. reflexivity.
Defined.

End retrieval_pipeline.

(** ** More on the keyword signals *)

Section keyword_signals_more.

Import Notions KeywordAnalysisTool.

Lemma startswith_true (p s : str) :
  startswith p s = true ↔ ∃ after, s = p ++ after.
Proof.
  revert s. induction p as [|a p IH]; intros s; simpl.
  - split; [by exists s | done].
  - destruct s as [|b s]; [split; [done | by intros [? ?]]|].
    destruct (decide (a = b)) as [->|Hne].
    + rewrite IH. split; intros [after H]; exists after; congruence.
    + split; [done|]. intros [after [= ? _]]. done.
Qed.

Lemma contains_true (sub s : str) :
  contains sub s = true ↔ ∃ before after, s = before ++ sub ++ after.
Proof.
  induction s as [|c s IH]; cbn [contains].
  - rewrite orb_false_r, startswith_true. split.
    + intros [after H]. by exists [], after.
    + intros (before & after & H). destruct before; [by exists after|done].
  - rewrite orb_true_iff, startswith_true, IH. split.
    + intros [[after H]|(before & after & H)].
      * by exists [], after.
      * exists (c :: before), after. by rewrite H.
    + intros (before & after & H). destruct before as [|b before].
      * left. by exists after.
      * right. injection H as -> H. by exists before, after.
Qed.

(** A text that contains a string contains every piece of it. *)
Lemma contains_piece (front sub back s : str) :
  contains (front ++ sub ++ back) s = true → contains sub s = true.
Proof.
  rewrite !contains_true. intros (before & after & ->).
  exists (before ++ front), (back ++ after). by rewrite <- !app_assoc.
Qed.

Lemma any_in_elem (keywords : list str) (keyword content_lower : str) :
  keyword ∈ keywords → contains keyword content_lower = true →
  any_in keywords content_lower = true.
Proof.
  intros Hin Hc. apply existsb_exists. exists keyword.
  split; [by apply list_elem_of_In | done].
Qed.

(** X16.  Keywords are matched as substrings, so a keyword of the low
    tier that contains a keyword of the high tier can never take effect:
    every text that says "no rush" or "low priority", in any letter case,
    is classified ["high"]. *)
Theorem urgency_no_rush_is_high (email_content : str) :
  contains (py "no rush") (lower email_content) = true
  ∨ contains (py "low priority") (lower email_content) = true →
  in_tier "low" email_content ∧ urgency email_content = py "high".
Proof.
  intros H. split.
  - unfold in_tier. destruct H as [H|H].
    + apply (any_in_elem _ (py "no rush")); [|done].
      apply list_elem_of_In. vm_compute. tauto.
    + apply (any_in_elem _ (py "low priority")); [|done].
      apply list_elem_of_In. vm_compute. tauto.
  - rewrite urgency_tiers, urgency_loop_three.
    assert (any_in (tier "high") (lower email_content) = true) as ->; [|done].
    destruct H as [H|H].
    + apply (any_in_elem _ (py "rush")).
      * apply list_elem_of_In. vm_compute. tauto.
      * by apply (contains_piece (py "no ") (py "rush") []).
    + apply (any_in_elem _ (py "priority")).
      * apply list_elem_of_In. vm_compute. tauto.
      * by apply (contains_piece (py "low ") (py "priority") []).
Qed.

Lemma urgency_no_rush_is_high_witness :
  urgency (py "Take your time, there is No Rush on this.") = py "high".
Proof.
  apply urgency_no_rush_is_high. left. vm_compute. reflexivity.
Defined.

End keyword_signals_more.

(** ** The distribution of intents *)

Section intent_distribution.

Import Notions IntentClassifierAgent.

Lemma max_from_elem (best : str * nat) (rest : list (str * nat)) :
  max_from best rest ∈ best :: rest.
Proof.
  revert best. induction rest as [|entry rest IH]; intros best; cbn [max_from].
  - apply list_elem_of_here.
  - destruct (best.2 <? entry.2).
    + apply list_elem_of_further, IH.
    + pose proof (IH best) as [->|H]%elem_of_cons.
      * apply list_elem_of_here.
      * by do 2 apply list_elem_of_further.
Qed.

Lemma max_from_zero (best : str * nat) (rest : list (str * nat)) :
  Forall (λ entry, entry.2 = 0) rest → max_from best rest = best.
Proof.
  induction 1 as [|entry rest Hz _ IH]; cbn [max_from]; [done|].
  rewrite Hz. by destruct (best.2).
Qed.

Lemma primary_intent_known (email : str) (entry : str * nat)
    (rest : list (str * nat)) :
  intent_scores email = entry :: rest →
  (max_from entry rest).1 ∈ intents.
Proof.
  intros Hs. pose proof (max_from_elem entry rest) as Hin.
  rewrite <- Hs in Hin. apply (list_elem_of_fmap_2 fst) in Hin.
  revert Hin. generalize ((max_from entry rest).1). intros k.
  unfold intent_scores, INTENT_KEYWORDS. cbn [map fst fmap list_fmap].
  done.
Qed.

Lemma counted_total_insert (results : gmap str nat) (k : str) (n : nat) :
  k ∈ intents → results !! k = Some n →
  counted_total (<[k := n + 1]> results) = S (counted_total results).
Proof.
  intros Hk Hn. unfold counted_total, counted.
  repeat (apply elem_of_cons in Hk as [->|Hk]);
    [..|by apply elem_of_nil in Hk];
    rewrite Hn, lookup_insert_eq, !lookup_insert_ne
      by (intros E; vm_compute in E; discriminate);
    cbn [default from_option id]; lia.
Qed.

Lemma count_email_total (results : gmap str nat) (email : str) :
  (∀ k, k ∈ intents → is_Some (results !! k)) →
  ∃ results', count_email results email = Some results'
    ∧ counted_total results' = S (counted_total results)
    ∧ (∀ k, k ∈ intents → is_Some (results' !! k)).
Proof.
  intros Hdom. unfold count_email.
  destruct (intent_scores email) as [|entry rest] eqn:Hs.
  { apply (f_equal length) in Hs. vm_compute in Hs. discriminate. }
  pose proof (primary_intent_known email entry rest Hs) as Hk.
  destruct (Hdom _ Hk) as [n Hn]. rewrite Hn. csimpl.
  eexists. split; [done|]. split; [by apply counted_total_insert|].
  intros k' Hk'. rewrite lookup_insert. case_decide; [done|by apply Hdom].
Qed.

Lemma count_emails_total (email_batch : list str) (results : gmap str nat) :
  (∀ k, k ∈ intents → is_Some (results !! k)) →
  ∃ results', count_emails results email_batch = Some results'
    ∧ counted_total results' = counted_total results + length email_batch.
Proof.
  revert results.
  induction email_batch as [|email rest IH]; intros results Hdom.
  - exists results. cbn. split; [done | lia].
  - cbn [count_emails].
    destruct (count_email_total results email Hdom) as (r1 & -> & Ht & Hdom1).
    csimpl. destruct (IH r1 Hdom1) as (r2 & -> & Ht2).
    exists r2. split; [done|]. cbn [length]. lia.
Qed.

Lemma no_counts_known (k : str) : k ∈ intents → is_Some (no_counts !! k).
Proof.
  intros Hk. repeat (apply elem_of_cons in Hk as [->|Hk]);
    [..|by apply elem_of_nil in Hk]; by eexists.
Qed.

(** X17.  The distribution never fails with a missing key and counts
    every e-mail of the batch exactly once: the four counts add up to the
    size of the batch. *)
Theorem intent_distribution_total (email_batch : list str) :
  ∃ results,
    analyze_intent_distribution email_batch = Some results
    ∧ counted_total results = length email_batch.
Proof.
  destruct (count_emails_total email_batch no_counts no_counts_known)
    as (results & Hrun & Htotal).
  exists results. split; [done|]. by rewrite Htotal.
Qed.

Lemma intent_scores_shape (email : str) :
  ∃ a b c d,
    intent_scores email
    = [(py "question", a); (py "complaint", b); (py "escalation", c);
       (py "request", d)].
Proof. unfold intent_scores, INTENT_KEYWORDS. cbn [map fst]. by eexists _, _, _, _. Qed.

Lemma count_email_no_keyword (results : gmap str nat) (email : str) (n : nat) :
  no_intent_keyword email → results !! py "question" = Some n →
  count_email results email = Some (<[py "question" := n + 1]> results).
Proof.
  unfold no_intent_keyword, count_email. intros Hno Hn.
  destruct (intent_scores_shape email) as (a & b & c & d & Hs).
  rewrite Hs in *. apply Forall_cons in Hno as [_ Hrest].
  rewrite (max_from_zero _ _ Hrest). cbn [fst]. by rewrite Hn.
Qed.

Lemma count_emails_no_keyword (email_batch : list str) (n : nat) :
  Forall no_intent_keyword email_batch →
  count_emails (<[py "question" := n]> no_counts) email_batch
  = Some (<[py "question" := n + length email_batch]> no_counts).
Proof.
  intros Hall. revert n.
  induction Hall as [|email rest Hno _ IH]; intros n.
  - cbn. by rewrite Nat.add_0_r.
  - cbn [count_emails].
    rewrite (count_email_no_keyword _ email n Hno) by apply lookup_insert_eq.
    csimpl. rewrite insert_insert_eq, IH. do 2 f_equal. lia.
Qed.

(** X18.  An e-mail without any intent keyword still counts, as a
    question: with all four scores at zero the first key of the
    dictionary is the maximum.  A batch of such e-mails is counted as so
    many questions and nothing else. *)
Theorem intent_distribution_no_keyword (email_batch : list str) :
  Forall no_intent_keyword email_batch →
  analyze_intent_distribution email_batch
  = Some (<[py "question" := length email_batch]> no_counts).
Proof.
  intros Hall. unfold analyze_intent_distribution.
  rewrite <- (insert_id no_counts (py "question") 0) at 1 by done.
  by rewrite count_emails_no_keyword.
Qed.

Lemma intent_distribution_no_keyword_witness :
  ∃ results,
    analyze_intent_distribution [py "Hello there"; py "Good morning"]
    = Some results
    ∧ counted results "question" = 2 ∧ counted results "request" = 0.
Proof.
  eexists. split.
  - apply intent_distribution_no_keyword.
    repeat constructor; vm_compute; repeat constructor.
  - split; reflexivity.
Defined.

End intent_distribution.

(** ** More on the tone analyser *)

Section tone_more.

Import Notions ToneAnalysisTool.

Lemma insert_front_if_absent_elem (t x : str) (l : list str) :
  x ∈ insert_front_if_absent t l ↔ x = t ∨ x ∈ l.
Proof.
  unfold insert_front_if_absent. destruct (decide (t ∈ l)) as [Hin|Hout].
  - split; [by right|]. by intros [->|?].
  - apply elem_of_cons.
Qed.

Lemma append_if_absent_elem (t x : str) (l : list str) :
  x ∈ append_if_absent t l ↔ x = t ∨ x ∈ l.
Proof.
  unfold append_if_absent. destruct (decide (t ∈ l)) as [Hin|Hout].
  - split; [by right|]. by intros [->|?].
  - rewrite elem_of_app, list_elem_of_singleton. tauto.
Qed.

Lemma insert_front_if_absent_idemp (t : str) (l : list str) :
  insert_front_if_absent t (insert_front_if_absent t l)
  = insert_front_if_absent t l.
Proof.
  unfold insert_front_if_absent at 1.
  rewrite decide_True; [done|]. apply insert_front_if_absent_elem. by left.
Qed.

Lemma append_if_absent_idemp (t : str) (l : list str) :
  append_if_absent t (append_if_absent t l) = append_if_absent t l.
Proof.
  unfold append_if_absent at 1.
  rewrite decide_True; [done|]. apply append_if_absent_elem. by left.
Qed.

Lemma adjust_idemp (n p : nat) (l : list str) :
  adjust n p (adjust n p l) = adjust n p l.
Proof.
  unfold adjust. destruct (decide (p < n ∧ 0 < n)).
  - set (l1 := insert_front_if_absent (py "apologetic") l).
    assert (insert_front_if_absent (py "apologetic")
              (append_if_absent (py "understanding") l1)
            = append_if_absent (py "understanding") l1) as ->.
    { unfold insert_front_if_absent at 1. rewrite decide_True; [done|].
      apply append_if_absent_elem. right.
      apply insert_front_if_absent_elem. by left. }
    apply append_if_absent_idemp.
  - destruct (decide (n < p ∧ 0 < p)); [|done].
    apply append_if_absent_idemp.
Qed.

(** X19.  Asking the same thing twice in a row gives the same answer:
    a call repeated on the mapping it has left behind returns the same
    result and leaves that mapping as it is. *)
Theorem tone_run_repeat (mapping : gmap str (list str))
    (email_content intent : str) (sender_history : option (gmap str bool)) :
  _run (_run mapping email_content intent sender_history).2
       email_content intent sender_history
  = _run mapping email_content intent sender_history.
Proof.
  unfold _run. cbn [snd].
  destruct (mapping !! intent) as [l|] eqn:Hl.
  - rewrite lookup_insert_eq. cbn [default from_option id].
    rewrite adjust_idemp, insert_insert_eq. done.
  - rewrite Hl. done.
Qed.

(** X20.  A text with as many positive as negative indicators, and any
    text under an intent that is not a key of the mapping, leaves the
    mapping of the tool as it is. *)
Theorem tone_run_keeps_mapping (mapping : gmap str (list str))
    (email_content intent : str) (sender_history : option (gmap str bool)) :
  count_in NEGATIVE_INDICATORS (lower email_content)
  = count_in POSITIVE_INDICATORS (lower email_content)
  ∨ mapping !! intent = None →
  (_run mapping email_content intent sender_history).2 = mapping.
Proof.
  intros H. unfold _run. cbn [snd].
  destruct (mapping !! intent) as [l|] eqn:Hl; [|done].
  destruct H as [Heq|?]; [|done]. apply insert_id.
  rewrite Hl. unfold adjust. rewrite Heq.
  rewrite !decide_False by lia. done.
Qed.

Lemma tone_run_keeps_mapping_witness :
  (_run TONE_MAPPING (py "Where is my order?") (py "question") None).2
  = TONE_MAPPING.
Proof.
  apply tone_run_keeps_mapping. left. vm_compute. reflexivity.
Defined.

Lemma adjust_ok (n p : nat) (l : list str) :
  l ≠ [] ∧ (py "apologetic" ∈ l → head l = Some (py "apologetic")) →
  adjust n p l ≠ []
  ∧ (py "apologetic" ∈ adjust n p l
     → head (adjust n p l) = Some (py "apologetic")).
Proof.
  intros [Hne Hhead]. unfold adjust.
  assert (∀ t l', l' ≠ [] → append_if_absent t l' ≠ []
                  ∧ head (append_if_absent t l') = head l') as Happ.
  { intros t l' Hl'. unfold append_if_absent.
    destruct (decide (t ∈ l')); [done|]. by destruct l'. }
  destruct (decide (p < n ∧ 0 < n)).
  - assert (insert_front_if_absent (py "apologetic") l ≠ []
            ∧ head (insert_front_if_absent (py "apologetic") l)
              = Some (py "apologetic")) as [Hne1 Hh1].
    { unfold insert_front_if_absent.
      destruct (decide (py "apologetic" ∈ l)); [by split; auto|done]. }
    destruct (Happ (py "understanding") _ Hne1) as [? Hh]. split; [done|].
    intros _. by rewrite Hh.
  - destruct (decide (n < p ∧ 0 < p)); [|done].
    destruct (Happ (py "friendly") _ Hne) as [? Hh]. split; [done|].
    rewrite Hh. intros [E|Hin]%append_if_absent_elem; [|by apply Hhead].
    vm_compute in E. discriminate.
Qed.

Lemma tone_run_ok (mapping : gmap str (list str))
    (email_content intent : str) (sender_history : option (gmap str bool)) :
  tones_ok mapping →
  tones_ok (_run mapping email_content intent sender_history).2.
Proof.
  intros Hok. unfold _run. cbn [snd].
  destruct (mapping !! intent) as [l|] eqn:Hl; [|done].
  intros k l'. rewrite lookup_insert. case_decide as Hk; [|apply Hok].
  intros [= <-]. cbn [default from_option id]. apply adjust_ok.
  exact (Hok intent l Hl).
Qed.

Lemma tones_ok_initial : tones_ok TONE_MAPPING.
Proof.
  intros k l Hk.
  assert (l ∈ (map_to_list TONE_MAPPING).*2) as Hin.
  { apply list_elem_of_fmap. exists (k, l). split; [done|].
    by apply elem_of_map_to_list. }
  vm_compute in Hin.
  repeat (apply elem_of_cons in Hin as [->|Hin]);
    [..|by apply elem_of_nil in Hin];
    (split; [done|]); intros Ha; try reflexivity;
    apply list_elem_of_In in Ha; vm_compute in Ha;
    intuition discriminate.
Qed.

Lemma after_calls_ok (calls : list ToneCall) (mapping : gmap str (list str)) :
  tones_ok mapping → tones_ok (after_calls calls mapping).
Proof.
  unfold after_calls. revert mapping.
  induction calls as [|call calls IH]; intros mapping Hok; [done|].
  cbn [foldl]. by apply IH, tone_run_ok.
Qed.

(** X21.  Whatever calls a tool object has served, the next call has a
    primary tone: no list of the mapping is ever empty, so [base_tones[0]]
    does not raise; for an intent that is not a key the primary tone is
    ["professional"], or ["apologetic"] on a negative text. *)
Theorem tone_primary_defined (calls : list ToneCall)
    (email_content intent : str) (sender_history : option (gmap str bool)) :
  is_Some (primary_tone
             (_run (after_calls calls TONE_MAPPING) email_content intent
                   sender_history).1)
  ∧ (after_calls calls TONE_MAPPING !! intent = None →
     primary_tone
       (_run (after_calls calls TONE_MAPPING) email_content intent
             sender_history).1
     = Some (if decide (sounds_negative email_content)
             then py "apologetic" else py "professional")).
Proof.
  pose proof (after_calls_ok calls _ tones_ok_initial) as Hok.
  set (m := after_calls calls TONE_MAPPING) in *.
  unfold _run. cbn [fst primary_tone]. split.
  - destruct (m !! intent) as [l|] eqn:Hl; cbn [default from_option id].
    + destruct (adjust_ok (count_in NEGATIVE_INDICATORS (lower email_content))
                  (count_in POSITIVE_INDICATORS (lower email_content)) l)
        as [Hne _]; [exact (Hok intent l Hl)|].
      by destruct (adjust _ _ l).
    + destruct (adjust_ok (count_in NEGATIVE_INDICATORS (lower email_content))
                  (count_in POSITIVE_INDICATORS (lower email_content))
                  [py "professional"]) as [Hne _].
      { split; [done|]. intros E%list_elem_of_singleton.
        vm_compute in E. discriminate. }
      by destruct (adjust _ _ [py "professional"]).
  - intros ->. cbn [default from_option id]. unfold adjust, sounds_negative.
    destruct (decide (_ < _)) as [Hneg|Hpos].
    + rewrite decide_True by lia. reflexivity.
    + rewrite decide_False by lia.
      destruct (decide (_ ∧ _)); reflexivity.
Qed.

Lemma adjust_grows (n p : nat) (l : list str) (x : str) :
  x ∈ l → x ∈ adjust n p l.
Proof.
  intros Hx. unfold adjust. destruct (decide (p < n ∧ 0 < n)).
  - apply append_if_absent_elem. right.
    apply insert_front_if_absent_elem. by right.
  - destruct (decide (n < p ∧ 0 < p)); [|done].
    apply append_if_absent_elem. by right.
Qed.

Lemma tone_run_lookup (mapping : gmap str (list str))
    (email_content intent k : str) (sender_history : option (gmap str bool))
    (l : list str) :
  mapping !! k = Some l →
  ∃ l', (_run mapping email_content intent sender_history).2 !! k = Some l'
        ∧ ∀ x, x ∈ l → x ∈ l'.
Proof.
  intros Hk. unfold _run. cbn [snd].
  destruct (mapping !! intent) as [li|] eqn:Hl; [|by exists l].
  destruct (decide (intent = k)) as [->|Hne].
  - rewrite lookup_insert_eq. eexists. split; [done|].
    intros x Hx. cbn [default from_option id]. apply adjust_grows.
    congruence.
  - rewrite lookup_insert_ne by done. by exists l.
Qed.

Lemma after_calls_lookup (calls : list ToneCall)
    (mapping : gmap str (list str)) (k : str) (l : list str) :
  mapping !! k = Some l →
  ∃ l', after_calls calls mapping !! k = Some l' ∧ ∀ x, x ∈ l → x ∈ l'.
Proof.
  unfold after_calls. revert mapping l.
  induction calls as [|call calls IH]; intros mapping l Hk; [by exists l|].
  cbn [foldl].
  destruct (tone_run_lookup mapping call.1.1 call.1.2 k call.2 l Hk)
    as (l1 & H1 & Hsub1).
  destruct (IH _ _ H1) as (l2 & H2 & Hsub2).
  exists l2. split; [done|]. auto.
Qed.

Lemma tone_run_negative (mapping : gmap str (list str))
    (email_content k : str) (sender_history : option (gmap str bool))
    (l : list str) :
  mapping !! k = Some l → sounds_negative email_content →
  ∃ l', (_run mapping email_content k sender_history).2 !! k = Some l'
        ∧ py "apologetic" ∈ l'.
Proof.
  intros Hk Hneg. unfold _run. cbn [snd]. rewrite Hk, lookup_insert_eq.
  eexists. split; [done|]. cbn [default from_option id].
  unfold adjust, sounds_negative in *. rewrite decide_True by lia.
  apply append_if_absent_elem. right.
  apply insert_front_if_absent_elem. by left.
Qed.

Lemma after_calls_app (calls1 calls2 : list ToneCall)
    (mapping : gmap str (list str)) :
  after_calls (calls1 ++ calls2) mapping
  = after_calls calls2 (after_calls calls1 mapping).
Proof. apply foldl_app. Qed.

Lemma after_calls_cons (email_content intent : str)
    (history : option (gmap str bool)) (calls : list ToneCall)
    (mapping : gmap str (list str)) :
  after_calls ((email_content, intent, history) :: calls) mapping
  = after_calls calls (_run mapping email_content intent history).2.
Proof. reflexivity. Qed.

(** X22.  An apology sticks.  Once a tool object has served one call with
    a negative text under an intent of the mapping, every later call under
    that intent has the primary tone ["apologetic"], whatever its text
    and whatever calls were served before or in between. *)
Theorem tone_apology_sticks (earlier later : list ToneCall)
    (negative_text k email_content : str)
    (history history' : option (gmap str bool)) :
  is_Some (TONE_MAPPING !! k) → sounds_negative negative_text →
  primary_tone
    (_run (after_calls (earlier ++ (negative_text, k, history) :: later)
                       TONE_MAPPING)
          email_content k history').1
  = Some (py "apologetic").
Proof.
  intros [l0 Hk0] Hneg.
  set (m := after_calls (earlier ++ (negative_text, k, history) :: later)
                        TONE_MAPPING).
  assert (tones_ok m) as Hok by apply after_calls_ok, tones_ok_initial.
  assert (∃ l3, m !! k = Some l3 ∧ py "apologetic" ∈ l3) as (l3 & H3 & Ha3).
  { subst m. rewrite after_calls_app, after_calls_cons.
    destruct (after_calls_lookup earlier _ k l0 Hk0) as (l1 & H1 & _).
    destruct (tone_run_negative _ negative_text k history l1 H1 Hneg)
      as (l2 & H2 & Ha2).
    destruct (after_calls_lookup later _ k l2 H2) as (l3 & H3 & Hsub3).
    exists l3. split; [exact H3 | auto]. }
  unfold _run. cbn [fst primary_tone]. rewrite H3.
  cbn [default from_option id].
  destruct (adjust_ok (count_in NEGATIVE_INDICATORS (lower email_content))
              (count_in POSITIVE_INDICATORS (lower email_content)) l3
              (Hok k l3 H3)) as [_ Hhead].
  by apply Hhead, adjust_grows.
Qed.

Lemma tone_apology_sticks_witness :
  primary_tone
    (_run (after_calls [(py "This is terrible", py "request", None);
                        (py "Thank you, great job", py "request", None)]
                       TONE_MAPPING)
          (py "Please send the catalog") (py "request") None).1
  = Some (py "apologetic").
Proof.
  apply (tone_apology_sticks [] [(py "Thank you, great job", py "request", None)]
           (py "This is terrible") (py "request")).
  - by eexists.
  - unfold sounds_negative. vm_compute. lia.
Defined.

End tone_more.

(** ** Numbered lines of an expansion reply *)

Section expansion_numbered.

Import Notions ContextRetrieverAgent.

Lemma parse_lines_numbered (lines : list str) :
  Forall (λ line, strip line = []
                  ∨ QueryExpansionTool.numbered (strip line) = true) lines →
  QueryExpansionTool.parse_lines lines = [].
Proof.
  induction 1 as [|line lines Hline _ IH]; cbn [QueryExpansionTool.parse_lines];
    [done|].
  destruct (strip line) as [|c r] eqn:Hs; [done|].
  destruct Hline as [? | ->]; done.
Qed.

(** X23.  Lines of the reply that start with one of the markers ["1."]
    to ["5."] are dropped, not stripped of the marker: a reply made only
    of numbered and blank lines gives no alternative, and the primary
    query is searched alone. *)
Theorem expansion_numbered_lines_dropped (content original_query : str) :
  Forall (λ line, strip line = []
                  ∨ QueryExpansionTool.numbered (strip line) = true)
         (split_char "010"%char (strip content)) →
  QueryExpansionTool._run (Some content) original_query = []
  ∧ _expand_query (Some content) original_query = [original_query].
Proof.
  intros Hlines. unfold _expand_query, expand_with.
  cbn [QueryExpansionTool._run]. rewrite (parse_lines_numbered _ Hlines).
  done.
Qed.

Lemma expansion_numbered_lines_dropped_witness :
  _expand_query (Some (py "1. refund policy for returns
2. how to send an item back

3. money back guarantee")) (py "return policy") = [py "return policy"].
Proof.
  apply expansion_numbered_lines_dropped.
  match goal with
  | |- Forall _ ?lines =>
      let lines' := eval vm_compute in lines in
      replace lines with lines' by (vm_compute; reflexivity)
  end.
  repeat (apply Forall_cons; split;
          [first [left; vm_compute; reflexivity
                 | right; vm_compute; reflexivity]|]).
  apply Forall_nil. exact I.
Defined.

End expansion_numbered.

(** ** The contexts a retrieval returns *)

Section retrieval_result.

Import BaseAgent Notions RetrievalPipeline.

Lemma sorted_fmap_NoDup {B} (f : ContextFilterTool.Scored → B)
    (l : list ContextFilterTool.Scored) :
  StronglySorted ranked_before l →
  (∀ a b, a ∈ l → b ∈ l → ranked_before a b → f a ≠ f b) →
  NoDup (f <$> l).
Proof.
  induction 1 as [|a l Hsorted IH Ha]; intros Hdiff; [constructor|].
  rewrite fmap_cons. constructor.
  - intros (b & Hfb & Hb)%list_elem_of_fmap.
    apply (Hdiff a b); [apply list_elem_of_here
                       |by apply list_elem_of_further| |done].
    by eapply Forall_forall in Ha.
  - apply IH. intros x y Hx Hy. apply Hdiff; by apply list_elem_of_further.
Qed.

Lemma filtered_distinct_keys (judge : nat → str → ContextFilterTool.Rating)
    (texts : list str) :
  NoDup (ContextRetrieverAgent.context_key <$> texts) →
  NoDup (ContextRetrieverAgent.context_key
           <$> (ContextFilterTool.context
                  <$> ContextFilterTool.filtered judge texts)).
Proof.
  intros Hnd. rewrite <- list_fmap_compose. apply sorted_fmap_NoDup.
  { apply filter_sorted, sort_desc_score_from_sorted. }
  intros a b [[Hca Hsa] _]%elem_of_filtered [[Hcb Hsb] _]%elem_of_filtered
    Hrank Hkey.
  cbn in Hkey.
  assert (ContextFilterTool.index a = ContextFilterTool.index b) as Hidx.
  { eapply (NoDup_lookup _ _ _ _ Hnd); rewrite list_lookup_fmap.
    - by rewrite Hca.
    - rewrite Hcb. cbn. by rewrite Hkey. }
  rewrite Hidx, Hcb in Hca. injection Hca as Hca.
  destruct Hrank as [Hlt|[_ Hlt]]; [|lia].
  rewrite Hsa, Hsb, Hidx, Hca in Hlt. by apply Qlt_irrefl in Hlt.
Qed.

Lemma filtered_scores_sorted (judge : nat → str → ContextFilterTool.Rating)
    (texts : list str) :
  StronglySorted (λ q1 q2, (q2 <= q1)%Q)
    (ContextFilterTool.score <$> ContextFilterTool.filtered judge texts).
Proof.
  assert (StronglySorted ranked_before
            (ContextFilterTool.filtered judge texts)) as Hsorted
    by apply filter_sorted, sort_desc_score_from_sorted.
  induction Hsorted as [|a l _ IH Ha]; [constructor|].
  rewrite fmap_cons. constructor; [done|].
  apply Forall_fmap. eapply Forall_impl; [exact Ha|].
  intros b. apply ranked_before_le.
Qed.

Lemma score_of_range (r : ContextFilterTool.Rating) :
  (1 <= ContextFilterTool.score_of r <= 10)%Q.
Proof. destruct r as [| |x]; try (split; discriminate). apply clamp_range. Qed.

Lemma sorted_take {A} (R : A → A → Prop) (n : nat) (l : list A) :
  StronglySorted R l → StronglySorted R (take n l).
Proof.
  intros H. rewrite <- (take_drop n l) in H.
  by apply StronglySorted_app_1_l in H.
Qed.

(** X24.  What a retrieval returns is ranked and free of duplicates: the
    de-duplication keys of the returned contexts are pairwise distinct,
    the returned scores never increase along the list, and each of them
    is between 6 and 10. *)
Theorem process_ranked_distinct (query_llm expansion_llm : option str)
    (store : str → option (list Hit))
    (judge : nat → str → ContextFilterTool.Rating) (state : AgentState) :
  nonempty (email_content state) →
  ∃ data,
    process query_llm expansion_llm store judge state = Retrieved data
    ∧ NoDup (ContextRetrieverAgent.context_key <$> contexts data)
    ∧ StronglySorted (λ q1 q2, (q2 <= q1)%Q) (scores data)
    ∧ Forall (λ q, (6 <= q <= 10)%Q) (scores data).
Proof.
  intros (c & r & Hbody). unfold process. rewrite Hbody.
  set (expanded := ContextRetrieverAgent._expand_query _ _).
  destruct (gather_passages store expanded) as (l & Hc & Hs & Hq).
  rewrite Hc, Hs, Hq, deduplicate_contexts_passages.
  cbn [ContextRetrieverAgent.contexts ContextRetrieverAgent.sources].
  set (kept := foldl keep [] l).
  assert (NoDup (ContextRetrieverAgent.context_key <$> (p_text <$> kept)))
    as Hnd.
  { rewrite <- list_fmap_compose. apply (foldl_keep_NoDup l []). constructor. }
  eexists. split; [done|]. cbn [contexts scores].
  cbn [ContextFilterTool._run ContextFilterTool.filtered_contexts
       ContextFilterTool.scores].
  change (map ContextFilterTool.context ?x)
    with (ContextFilterTool.context <$> x).
  change (map ContextFilterTool.score ?x) with (ContextFilterTool.score <$> x).
  split; [|split].
  - rewrite fmap_take. eapply sublist_NoDup; [|apply sublist_take].
    by apply filtered_distinct_keys.
  - apply sorted_take, filtered_scores_sorted.
  - apply Forall_take, Forall_fmap, Forall_forall.
    intros x [[_ Hsx] Hge]%elem_of_filtered. cbn. split; [done|].
    rewrite Hsx. apply score_of_range.
Qed.

Lemma process_ranked_distinct_witness :
  ∃ data,
    process (Some (py "order delivery time")) None
      (λ _, Some [(py "Orders ship in 3 days", Some (py "faq"), (3 # 10)%Q);
                  (py "Orders ship in 3 days", None, (5 # 10)%Q);
                  (py "Returns take 30 days", Some (py "faq"), (4 # 10)%Q)])
      (λ i _, ContextFilterTool.Number
                (ContextFilterTool.Finite (inject_Z (Z.of_nat (6 + i)))))
      (received None (py "Where is my order?")) = Retrieved data
    ∧ contexts data = [py "Returns take 30 days"; py "Orders ship in 3 days"]
    ∧ NoDup (ContextRetrieverAgent.context_key <$> contexts data).
Proof.
  destruct (process_ranked_distinct (Some (py "order delivery time")) None
      (λ _, Some [(py "Orders ship in 3 days", Some (py "faq"), (3 # 10)%Q);
                  (py "Orders ship in 3 days", None, (5 # 10)%Q);
                  (py "Returns take 30 days", Some (py "faq"), (4 # 10)%Q)])
      (λ i _, ContextFilterTool.Number
                (ContextFilterTool.Finite (inject_Z (Z.of_nat (6 + i)))))
      (received None (py "Where is my order?")))
    as (data & Hrun & Hnd & _).
  - by eexists _, _.
  - exists data. split; [exact Hrun|]. split; [|exact Hnd].
    vm_compute in Hrun. injection Hrun as <-. reflexivity.
Defined.

End retrieval_result.
